(** * cvec: a type-erased growable array with a prefix header

    Shallow embedding of [cvec.h].  The repository carries the header twice;
    the two copies differ only in the names of the integer types and of the
    record, so one embedding covers both.  One allocation holds the
    bookkeeping record ([internal_cvec_metadata_]) followed by the element
    storage; the caller's handle points at the first storage byte.  The
    embedding keeps

    - the record's four fields, with the [uint64_t] arithmetic wrapped
      modulo [2^64] wherever the C code computes in that type;
    - the storage as the list of the bytes that follow the record;
    - the address of the allocation, so that relocation by [realloc] is
      visible;
    - the calls made to the allocator and to the element destructor, as a
      log of events in the order they happen;
    - undefined behaviour (an access outside the allocation) as [None]. *)

From Stdlib Require Import ZArith List Lia Bool.
From Stdlib.Strings Require Import Byte.
Import ListNotations.
Local Open Scope Z_scope.

(** ** Machine integers *)

Definition uint64_modulus : Z := 2 ^ 64.

(** Arithmetic in [uint64_t] / [size_t] wraps around. *)
Definition wrap64 (z : Z) : Z := z mod uint64_modulus.

Definition is_uint64 (z : Z) : Prop := 0 <= z < uint64_modulus.

(** [sizeof(internal_cvec_metadata_)]: three [uint64_t] and one function
    pointer on an LP64 target. *)
Definition sizeof_metadata : Z := 32.

(** ** Raw memory *)

Definition zero_byte : byte := x00.

(** [load m off n]: the [n] bytes of [m] that start at offset [off]. *)
Definition load (m : list byte) (off n : Z) : list byte :=
  firstn (Z.to_nat n) (skipn (Z.to_nat off) m).

(** [store m off bs]: [m] with [bs] written at offset [off]. *)
Definition store (m : list byte) (off : Z) (bs : list byte) : list byte :=
  firstn (Z.to_nat off) m ++ bs ++ skipn (Z.to_nat off + length bs) m.

(** The range [off, off + n) lies inside [m]. *)
Definition in_range (m : list byte) (off n : Z) : bool :=
  (0 <=? off) && (0 <=? n) && (off + n <=? Z.of_nat (length m)).

(** The three [string.h] routines, on the storage region.  A call of length
    zero touches nothing; a call whose range leaves the allocation is
    undefined. *)
Definition memset (m : list byte) (off : Z) (c : byte) (n : Z)
  : option (list byte) :=
  if n =? 0 then Some m
  else if in_range m off n then Some (store m off (repeat c (Z.to_nat n)))
  else None.

Definition memcpy (m : list byte) (off : Z) (src : list byte) (n : Z)
  : option (list byte) :=
  if n =? 0 then Some m
  else if in_range m off n && (n <=? Z.of_nat (length src))
       then Some (store m off (firstn (Z.to_nat n) src))
  else None.

Definition memmove (m : list byte) (dst src n : Z) : option (list byte) :=
  if n =? 0 then Some m
  else if in_range m dst n && in_range m src n
       then Some (store m dst (load m src n))
  else None.

(** Little-endian reading of an unsigned integer field. *)
Fixpoint uint_of_bytes (bs : list byte) : Z :=
  match bs with
  | [] => 0
  | b :: rest => Z.of_N (Byte.to_N b) + 256 * uint_of_bytes rest
  end.

(** ** The allocator

    What the C library is free to choose at one call: where the block is
    placed, and which bytes are found in memory nobody has written yet. *)
Record allocator := {
  place : Z;
  uninit : nat -> byte
}.

(** A fresh block of [n] bytes. *)
Definition fresh_block (A : allocator) (n : Z) : list byte :=
  map (uninit A) (seq 0 (Z.to_nat n)).

(** [resize A m n]: the first [n] bytes of [m]; when [n] exceeds the length
    of [m] the added bytes are whatever the allocator left there. *)
Definition resize (A : allocator) (m : list byte) (n : Z) : list byte :=
  map (fun i => nth i m (uninit A i)) (seq 0 (Z.to_nat n)).

(** ** Data model *)

(** [cvec_elem_destructor]: a function receiving a pointer to one element.
    Its model gives the bytes the callee leaves in that element. *)
Definition cvec_elem_destructor : Type := list byte -> list byte.

(** A live allocation: the record fields, the storage bytes behind them and
    the address the allocator gave the block. *)
Record cvec := {
  base : Z;
  size : Z;
  capacity : Z;
  typesize : Z;
  destructor : option cvec_elem_destructor;
  data : list byte
}.

(** The caller's handle: [NULL], or a pointer just past the record of a
    live allocation. *)
Inductive handle :=
| NULL
| Vec (v : cvec).

(** The address the handle holds ([(uint8_t* )meta + sizeof(metadata)]). *)
Definition address (h : handle) : Z :=
  match h with
  | NULL => 0
  | Vec v => base v + sizeof_metadata
  end.

(** The caller's typed view [vec[i]]: the [typesize] bytes of slot [i]. *)
Definition element (v : cvec) (i : Z) : list byte :=
  load (data v) (i * typesize v) (typesize v).

(** ** Effects *)

Inductive event :=
| call_malloc (request : Z)
| call_realloc (block : Z) (request : Z)
| call_free (block : Z)
| call_destructor (elem : Z) (bytes : list byte).

(** A computation logs the calls it makes; [None] is undefined behaviour. *)
Definition M (A : Type) : Type := option (A * list event).

Definition ret {A} (a : A) : M A := Some (a, []).

Definition bind {A B} (m : M A) (f : A -> M B) : M B :=
  match m with
  | None => None
  | Some (a, l) =>
      match f a with
      | None => None
      | Some (b, l') => Some (b, l ++ l')
      end
  end.

Definition emit (e : event) : M unit := Some (tt, [e]).

Definition lift {A} (o : option A) : M A :=
  match o with
  | Some a => ret a
  | None => None
  end.

Notation "x <- c1 ;; c2" := (bind c1 (fun x => c2))
  (at level 61, c1 at next level, right associativity).
Notation "c1 ;;; c2" := (bind c1 (fun _ => c2))
  (at level 61, right associativity).

(** [malloc(n)]: a block of [n] bytes nobody has written yet. *)
Definition malloc (A : allocator) (n : Z) : M (list byte) :=
  emit (call_malloc n) ;;; ret (fresh_block A n).

(** [realloc] of the block owning storage [m] to [n] bytes in all.  The
    record is written afterwards, so a block shorter than the record is
    undefined. *)
Definition realloc (A : allocator) (blk : Z) (m : list byte) (n : Z)
  : M (list byte) :=
  emit (call_realloc blk n) ;;;
  if n <? sizeof_metadata then None
  else ret (resize A m (n - sizeof_metadata)).

(** The bytes a callee confined to one element can leave in it. *)
Definition confine (old new : list byte) : list byte :=
  firstn (length old) (new ++ skipn (length new) old).

(** [destructor(data + off)] on an element of [n] bytes. *)
Definition run_destructor (d : cvec_elem_destructor) (vec : Z)
    (m : list byte) (off n : Z) : M (list byte) :=
  if in_range m off n then
    let bytes := load m off n in
    emit (call_destructor (vec + off) bytes) ;;;
    ret (store m off (confine bytes (d bytes)))
  else None.

(** ** Accessors *)

Definition cvec_get_capacity (vec : handle) : Z :=
  match vec with
  | Vec v => capacity v
  | NULL => 0
  end.

Definition cvec_get_sz (vec : handle) : Z :=
  match vec with
  | Vec v => size v
  | NULL => 0
  end.

Definition cvec_get_type_sz (vec : handle) : Z :=
  match vec with
  | Vec v => typesize v
  | NULL => 0
  end.

(** The C comparison yields the [int32_t] 1 or 0. *)
Definition cvec_empty (vec : handle) : Z :=
  if cvec_get_sz vec =? 0 then 1 else 0.

(** ** Creation *)

(** [cvec_reserve]: the whole block is zeroed, then [capacity], [typesize]
    and [destructor] are assigned.  [size] is never assigned: it is read
    back from the zeroed record. *)
Definition cvec_reserve (A : allocator) (capacity elem_sz : Z)
    (destructor : option cvec_elem_destructor) : M handle :=
  let new_allocated_size := wrap64 (sizeof_metadata + wrap64 (capacity * elem_sz)) in
  raw <- malloc A new_allocated_size ;;
  blk <- lift (memset raw 0 zero_byte new_allocated_size) ;;
  if new_allocated_size <? sizeof_metadata then None
  else
    ret (Vec {| base := place A;
                size := uint_of_bytes (load blk 0 8);
                capacity := capacity;
                typesize := elem_sz;
                destructor := destructor;
                data := skipn (Z.to_nat sizeof_metadata) blk |}).

Definition cvec_create (A : allocator) (elem_sz : Z)
    (destructor : option cvec_elem_destructor) : M handle :=
  cvec_reserve A 1 elem_sz destructor.

(** ** Append *)

(** The growth branch of [cvec_push_back].  The [memset] starts at byte
    offset [capacity] of the storage, as the C code writes it. *)
Definition grow (A : allocator) (v : cvec) : M cvec :=
  let capacity := capacity v in
  let elem_sz := typesize v in
  let new_capacity := if capacity =? 0 then 1 else wrap64 (capacity * 2) in
  m1 <- realloc A (base v) (data v)
          (wrap64 (sizeof_metadata + wrap64 (new_capacity * elem_sz))) ;;
  m2 <- lift (memset m1 capacity zero_byte
                (wrap64 (wrap64 (new_capacity - capacity) * elem_sz))) ;;
  ret {| base := place A;
         size := size v;
         capacity := new_capacity;
         typesize := elem_sz;
         destructor := destructor v;
         data := m2 |}.

Definition cvec_push_back (A : allocator) (vec : handle) (elem : list byte)
  : M handle :=
  match vec with
  | NULL => ret NULL
  | Vec v =>
      let sz := size v in
      let elem_sz := typesize v in
      v1 <- (if capacity v =? sz then grow A v else ret v) ;;
      m <- lift (memcpy (data v1) (wrap64 (sz * elem_sz)) elem elem_sz) ;;
      ret (Vec {| base := base v1;
                  size := wrap64 (size v1 + 1);
                  capacity := capacity v1;
                  typesize := typesize v1;
                  destructor := destructor v1;
                  data := m |})
  end.

(** ** Erase *)

(** [cvec_erase] returns nothing and updates the block in place; the model
    returns the handle together with the block it now points into. *)
Definition cvec_erase (vec : handle) (index : Z) : M handle :=
  match vec with
  | NULL => ret NULL
  | Vec v =>
      let sz := size v in
      let elem_sz := typesize v in
      if index >=? sz then ret (Vec v)
      else
        m1 <- match destructor v with
              | Some d => run_destructor d (address vec) (data v)
                            (wrap64 (index * elem_sz)) elem_sz
              | None => ret (data v)
              end ;;
        m2 <- lift (memmove m1
                      (wrap64 (index * elem_sz))
                      (wrap64 (wrap64 (index + 1) * elem_sz))
                      (wrap64 (wrap64 (sz - wrap64 (index + 1)) * elem_sz))) ;;
        ret (Vec {| base := base v;
                    size := wrap64 (sz - 1);
                    capacity := capacity v;
                    typesize := elem_sz;
                    destructor := destructor v;
                    data := m2 |})
  end.

(** ** Teardown *)

(** The loop [for (i = 0; i < sz; i++) destructor(data + i*elem_sz)], with
    [n] the number of iterations still to run. *)
Fixpoint destroy_elements (d : cvec_elem_destructor) (vec : Z) (elem_sz : Z)
    (n : nat) (i : Z) (m : list byte) : M (list byte) :=
  match n with
  | O => ret m
  | S n' =>
      m' <- run_destructor d vec m (wrap64 (i * elem_sz)) elem_sz ;;
      destroy_elements d vec elem_sz n' (wrap64 (i + 1)) m'
  end.

(** [cvec_free]: the log is all that remains of the block. *)
Definition cvec_free (vec : handle) : M unit :=
  match vec with
  | NULL => ret tt
  | Vec v =>
      match destructor v with
      | Some d =>
          destroy_elements d (address vec) (typesize v)
            (Z.to_nat (size v)) 0 (data v) ;;; ret tt
      | None => ret tt
      end ;;;
      emit (call_free (base v))
  end.

(** * Vocabulary of the properties *)

(** ** Well-formed buffers

    What every operation relies on: the live elements fit the reserved
    slots, the storage really has [capacity] slots of [typesize] bytes, and
    the block (record and storage) has a size [malloc] could be asked for.
    [cvec_reserve] establishes it whenever the size of the block is
    representable ([wf_reserve]); [cvec_erase] preserves it ([wf_erase]),
    and so does [cvec_push_back] as long as the grown buffer is
    representable ([push_back_defined]). *)
Record wf (v : cvec) : Prop := {
  wf_size : 0 <= size v <= capacity v;
  wf_typesize : 0 <= typesize v < uint64_modulus;
  wf_capacity : capacity v < uint64_modulus;
  wf_data : Z.of_nat (length (data v)) = capacity v * typesize v;
  wf_block : sizeof_metadata + capacity v * typesize v < uint64_modulus
}.

(** ** Append *)

(** The doubling rule, before it is wrapped to 64 bits. *)
Definition grown_capacity (c : Z) : Z := if c =? 0 then 1 else c * 2.

(** The doubled capacity does not wrap around. *)
Definition doubling_fits (v : cvec) : Prop :=
  grown_capacity (capacity v) < uint64_modulus.

(** The byte size of the grown block does not wrap around: the request is
    one [realloc] can be asked to satisfy. *)
Definition block_fits (v : cvec) : Prop :=
  sizeof_metadata + grown_capacity (capacity v) * typesize v < uint64_modulus.

(** The grown buffer is representable. *)
Definition fits (v : cvec) : Prop := doubling_fits v /\ block_fits v.

(** The storage as the growth branch leaves it: the block resized, then the
    [memset] from byte offset [capacity]. *)
Definition grown_data (A : allocator) (v : cvec) : list byte :=
  store (resize A (data v) (grown_capacity (capacity v) * typesize v))
        (capacity v)
        (repeat zero_byte
           (Z.to_nat ((grown_capacity (capacity v) - capacity v) * typesize v))).

(** ** Erase *)

(** The storage after the destructor ran on slot [index]. *)
Definition destructed (v : cvec) (index : Z) : list byte :=
  match destructor v with
  | Some d =>
      store (data v) (index * typesize v)
        (confine (element v index) (d (element v index)))
  | None => data v
  end.

(** The storage after the tail was moved down over slot [index]. *)
Definition erased_data (v : cvec) (index : Z) : list byte :=
  let m1 := destructed v index in
  store m1 (index * typesize v)
    (load m1 ((index + 1) * typesize v)
       ((size v - (index + 1)) * typesize v)).

(** The calls [cvec_erase] makes when it removes slot [index]. *)
Definition erase_events (v : cvec) (index : Z) : list event :=
  match destructor v with
  | Some _ =>
      [call_destructor (address (Vec v) + index * typesize v)
         (element v index)]
  | None => []
  end.

(** ** Teardown *)

(** The indices [0, 1, ..., n-1]. *)
Definition indices (n : Z) : list Z := map Z.of_nat (seq 0 (Z.to_nat n)).

(** The destructor calls [cvec_free] makes, in order. *)
Definition destroy_events (v : cvec) : list event :=
  match destructor v with
  | Some _ =>
      map (fun i => call_destructor (address (Vec v) + i * typesize v)
                      (element v i))
          (indices (size v))
  | None => []
  end.

(** ** Reachable buffers *)

(** The buffers a caller can hold: obtained from [cvec_reserve] (of which
    [cvec_create] is the case [capacity = 1]) and then taken through
    [cvec_push_back] and [cvec_erase], each step being a defined call. *)
Inductive reachable : cvec -> Prop :=
| reachable_reserve (A : allocator) (cap es : Z)
    (d : option cvec_elem_destructor) (v : cvec) (evs : list event) :
    is_uint64 cap -> is_uint64 es ->
    cvec_reserve A cap es d = Some (Vec v, evs) ->
    reachable v
| reachable_push_back (A : allocator) (v : cvec) (e : list byte)
    (v' : cvec) (evs : list event) :
    reachable v ->
    cvec_push_back A (Vec v) e = Some (Vec v', evs) ->
    reachable v'
| reachable_erase (v : cvec) (index : Z) (v' : cvec) (evs : list event) :
    reachable v -> is_uint64 index ->
    cvec_erase (Vec v) index = Some (Vec v', evs) ->
    reachable v'.

(** What holds of every reachable buffer, whatever wrapped on the way: the
    live elements lie inside the storage, and the storage is no longer than
    the recorded capacity says. *)
Record bounded (v : cvec) : Prop := {
  bounded_size : is_uint64 (size v);
  bounded_capacity : is_uint64 (capacity v);
  bounded_typesize : is_uint64 (typesize v);
  bounded_live : size v * typesize v <= Z.of_nat (length (data v));
  bounded_data : Z.of_nat (length (data v)) <= capacity v * typesize v;
  bounded_block : sizeof_metadata + Z.of_nat (length (data v)) < uint64_modulus
}.

(** ** The growth law *)

(** A run of appends, each with its own allocator behaviour. *)
Fixpoint push_back_all (h : handle) (calls : list (allocator * list byte))
  : M handle :=
  match calls with
  | [] => ret h
  | (A, e) :: rest =>
      h' <- cvec_push_back A h e ;; push_back_all h' rest
  end.

(** The capacity after [n] appends to a buffer reserved with capacity 0: the
    least power of two that is at least [n]. *)
Definition capacity_after (n : Z) : Z :=
  if n =? 0 then 0 else 2 ^ Z.log2_up n.

(** ** The spare slots *)

(** Slot [i] holds only zero bytes. *)
Definition zero_slot (v : cvec) (i : Z) : Prop :=
  element v i = repeat zero_byte (Z.to_nat (typesize v)).

(** Every slot in [size, capacity) holds only zero bytes. *)
Definition spare_slots_zero (v : cvec) : Prop :=
  forall i, size v <= i < capacity v -> zero_slot v i.

(** ** Sample buffers *)

(** An allocator that places blocks at [p] and leaves [0xAA] in memory it
    hands out. *)
Definition heap_at (p : Z) : allocator :=
  {| place := p; uninit := fun _ => xaa |}.

(** A destructor that scrubs the element it is given. *)
Definition scrub : cvec_elem_destructor :=
  fun bytes => map (fun _ => xff) bytes.

(** Four two-byte elements [e0, e1, e2, e3] in a buffer of six slots. *)
Definition four_of_six : cvec :=
  {| base := 4096; size := 4; capacity := 6; typesize := 2;
     destructor := Some scrub;
     data := [x10; x11; x20; x21; x30; x31; x40; x41;
              x00; x00; x00; x00] |}.

(** Two one-byte elements filling a buffer of two slots. *)
Definition two_of_two : cvec :=
  {| base := 4096; size := 2; capacity := 2; typesize := 1;
     destructor := None; data := [x10; x20] |}.

(** One one-byte element filling its buffer, and the buffer [cvec_erase]
    makes of it. *)
Definition single : cvec :=
  {| base := 4096; size := 1; capacity := 1; typesize := 1;
     destructor := None; data := [x2a] |}.
Definition emptied : cvec :=
  {| base := 4096; size := 0; capacity := 1; typesize := 1;
     destructor := None; data := [x2a] |}.

(** One four-byte element filling its buffer; two of them filling theirs. *)
Definition one_word : cvec :=
  {| base := 4096; size := 1; capacity := 1; typesize := 4;
     destructor := None; data := [x01; x02; x03; x04] |}.
Definition two_words : cvec :=
  {| base := 4096; size := 2; capacity := 2; typesize := 4;
     destructor := None;
     data := [x01; x02; x03; x04; x05; x06; x07; x08] |}.

(** Two-byte elements: a buffer reserved for one element and appended to
    twice, and the buffer a third append makes of it. *)
Definition grown_pair : cvec :=
  {| base := 8192; size := 2; capacity := 2; typesize := 2;
     destructor := None; data := [x10; x00; x20; x21] |}.




(** ** Runs of calls *)

(** [n] calls of [cvec_erase] at index 0, each on the buffer the previous
    one left. *)
Fixpoint erase_front (h : handle) (n : nat) : M handle :=
  match n with
  | O => ret h
  | S n' => h' <- cvec_erase h 0 ;; erase_front h' n'
  end.

(** The bytes [push_back] copies from each element of a run. *)
Definition copied (es : Z) (calls : list (allocator * list byte)) (k : nat)
  : list byte :=
  firstn (Z.to_nat es) (snd (nth k calls (heap_at 0, []))).

(** Three one-byte elements filling a buffer of three slots. *)
Definition three_of_three : cvec :=
  {| base := 4096; size := 3; capacity := 3; typesize := 1;
     destructor := Some scrub; data := [x10; x20; x30] |}.

(** Two four-byte elements filling a buffer of two slots, with a
    destructor. *)
Definition two_words_owned : cvec :=
  {| base := 4096; size := 2; capacity := 2; typesize := 4;
     destructor := Some scrub;
     data := [x01; x02; x03; x04; x05; x06; x07; x08] |}.

(** The buffers [two_of_two] and [four_of_six] become when an element is
    appended to the first and index 1 is erased from the second. *)
Definition three_of_four : cvec :=
  {| base := 8192; size := 3; capacity := 4; typesize := 1;
     destructor := None; data := [x10; x20; x30; x00] |}.
Definition three_of_six : cvec :=
  {| base := 4096; size := 3; capacity := 6; typesize := 2;
     destructor := Some scrub;
     data := [x10; x11; x30; x31; x40; x41; x40; x41;
              x00; x00; x00; x00] |}.

(** ** Counting reallocations *)

Definition is_realloc (ev : event) : bool :=
  match ev with
  | call_realloc _ _ => true
  | _ => false
  end.

(** The number of [realloc] calls in a log. *)
Definition reallocs (evs : list event) : Z :=
  Z.of_nat (length (filter is_realloc evs)).

(** The number of times a buffer reserved with capacity 0 has grown after
    [n] appends. *)
Definition growths_after (n : Z) : Z :=
  if n =? 0 then 0 else Z.log2_up n + 1.

(** * Properties *)

(** ** Machine arithmetic *)

Lemma wrap64_small (z : Z) : 0 <= z < uint64_modulus -> wrap64 z = z.
Proof. intros H. unfold wrap64. now apply Z.mod_small. Qed.

Lemma wrap64_range (z : Z) : 0 <= wrap64 z < uint64_modulus.
Proof. unfold wrap64. apply Z.mod_pos_bound. reflexivity. Qed.

Lemma wrap64_le (z : Z) : 0 <= z -> wrap64 z <= z.
Proof. intros H. unfold wrap64. apply Z.mod_le; [assumption | reflexivity]. Qed.

(** ** Bytes at a position *)

Lemma nth_error_load (m : list byte) (off n : Z) (k : nat) :
  nth_error (load m off n) k =
  if (k <? Z.to_nat n)%nat then nth_error m (Z.to_nat off + k) else None.
Proof. unfold load. now rewrite nth_error_firstn, nth_error_skipn. Qed.

Lemma nth_error_store (m : list byte) (off : Z) (bs : list byte) (k : nat) :
  (Z.to_nat off <= length m)%nat ->
  nth_error (store m off bs) k =
  if (k <? Z.to_nat off)%nat then nth_error m k
  else if (k <? Z.to_nat off + length bs)%nat
       then nth_error bs (k - Z.to_nat off)
       else nth_error m k.
Proof.
  intros Hoff. unfold store.
  rewrite nth_error_app, length_firstn, Nat.min_l by assumption.
  destruct (k <? Z.to_nat off)%nat eqn:E1.
  - now rewrite nth_error_firstn, E1.
  - apply Nat.ltb_ge in E1. rewrite nth_error_app.
    destruct (k <? Z.to_nat off + length bs)%nat eqn:E2.
    + apply Nat.ltb_lt in E2.
      replace (k - Z.to_nat off <? length bs)%nat with true
        by (symmetry; apply Nat.ltb_lt; lia).
      reflexivity.
    + apply Nat.ltb_ge in E2.
      replace (k - Z.to_nat off <? length bs)%nat with false
        by (symmetry; apply Nat.ltb_ge; lia).
      rewrite nth_error_skipn. f_equal. lia.
Qed.

Lemma length_store (m : list byte) (off : Z) (bs : list byte) :
  (Z.to_nat off + length bs <= length m)%nat ->
  length (store m off bs) = length m.
Proof.
  intros H. unfold store.
  rewrite !length_app, length_firstn, length_skipn. lia.
Qed.

Lemma store_nil (m : list byte) (off : Z) : store m off [] = m.
Proof.
  unfold store. cbn [length app]. rewrite Nat.add_0_r. apply firstn_skipn.
Qed.

Lemma length_load (m : list byte) (off n : Z) :
  0 <= off -> 0 <= n -> off + n <= Z.of_nat (length m) ->
  length (load m off n) = Z.to_nat n.
Proof.
  intros Ho Hn H. unfold load. rewrite length_firstn, length_skipn. lia.
Qed.

(** Two loads agree when the bytes under them agree. *)
Lemma load_ext (m m' : list byte) (off off' n : Z) :
  (forall k, (k < Z.to_nat n)%nat ->
             nth_error m (Z.to_nat off + k) = nth_error m' (Z.to_nat off' + k)) ->
  load m off n = load m' off' n.
Proof.
  intros H. apply nth_error_ext. intros k. rewrite !nth_error_load.
  destruct (k <? Z.to_nat n)%nat eqn:E; [| reflexivity].
  apply H. now apply Nat.ltb_lt.
Qed.

(** A load outside a stored range sees the old bytes. *)
Lemma load_store_other (m : list byte) (off : Z) (bs : list byte) (o n : Z) :
  0 <= off -> 0 <= o -> 0 <= n ->
  off + Z.of_nat (length bs) <= Z.of_nat (length m) ->
  o + n <= off \/ off + Z.of_nat (length bs) <= o ->
  load (store m off bs) o n = load m o n.
Proof.
  intros Hoff Ho Hn Hin Hdisj. apply load_ext. intros k Hk.
  rewrite nth_error_store by lia.
  destruct (Z.to_nat o + k <? Z.to_nat off)%nat eqn:E1; [reflexivity |].
  destruct (Z.to_nat o + k <? Z.to_nat off + length bs)%nat eqn:E2;
    [| reflexivity].
  apply Nat.ltb_ge in E1. apply Nat.ltb_lt in E2. lia.
Qed.

(** A load of exactly the stored range sees the stored bytes. *)
Lemma load_store_same (m : list byte) (off : Z) (bs : list byte) :
  0 <= off -> off <= Z.of_nat (length m) ->
  load (store m off bs) off (Z.of_nat (length bs)) = bs.
Proof.
  intros Hoff Hin. apply nth_error_ext. intros k.
  rewrite nth_error_load, Nat2Z.id.
  destruct (k <? length bs)%nat eqn:E.
  - apply Nat.ltb_lt in E. rewrite nth_error_store by lia.
    replace (Z.to_nat off + k <? Z.to_nat off)%nat with false
      by (symmetry; apply Nat.ltb_ge; lia).
    replace (Z.to_nat off + k <? Z.to_nat off + length bs)%nat with true
      by (symmetry; apply Nat.ltb_lt; lia).
    f_equal. lia.
  - apply Nat.ltb_ge in E. symmetry. now apply nth_error_None.
Qed.

Lemma in_range_true (m : list byte) (off n : Z) :
  0 <= off -> 0 <= n -> off + n <= Z.of_nat (length m) ->
  in_range m off n = true.
Proof.
  intros. unfold in_range.
  rewrite !andb_true_iff, !Z.leb_le. auto.
Qed.

Lemma in_range_inv (m : list byte) (off n : Z) :
  in_range m off n = true ->
  0 <= off /\ 0 <= n /\ off + n <= Z.of_nat (length m).
Proof.
  unfold in_range. rewrite !andb_true_iff, !Z.leb_le. tauto.
Qed.

Lemma length_confine (old new : list byte) :
  length (confine old new) = length old.
Proof.
  unfold confine. rewrite length_firstn, length_app, length_skipn. lia.
Qed.

(** ** The string routines, where they are defined *)

Lemma memset_defined (m : list byte) (off : Z) (c : byte) (n : Z) :
  0 <= off -> 0 <= n -> n = 0 \/ off + n <= Z.of_nat (length m) ->
  memset m off c n = Some (store m off (repeat c (Z.to_nat n))).
Proof.
  intros Hoff Hn H. unfold memset. destruct (n =? 0) eqn:E.
  - apply Z.eqb_eq in E. subst n. cbn [Z.to_nat repeat]. now rewrite store_nil.
  - apply Z.eqb_neq in E. rewrite in_range_true by lia. reflexivity.
Qed.

Lemma memcpy_defined (m : list byte) (off : Z) (src : list byte) (n : Z) :
  0 <= off -> 0 <= n -> n = 0 \/ off + n <= Z.of_nat (length m) ->
  n <= Z.of_nat (length src) ->
  memcpy m off src n = Some (store m off (firstn (Z.to_nat n) src)).
Proof.
  intros Hoff Hn H Hsrc. unfold memcpy. destruct (n =? 0) eqn:E.
  - apply Z.eqb_eq in E. subst n. cbn [Z.to_nat firstn]. now rewrite store_nil.
  - apply Z.eqb_neq in E. rewrite in_range_true by lia.
    replace (n <=? Z.of_nat (length src)) with true
      by (symmetry; now apply Z.leb_le).
    reflexivity.
Qed.

Lemma memmove_defined (m : list byte) (dst src n : Z) :
  0 <= dst -> 0 <= src -> 0 <= n ->
  n = 0 \/ (dst + n <= Z.of_nat (length m) /\ src + n <= Z.of_nat (length m)) ->
  memmove m dst src n = Some (store m dst (load m src n)).
Proof.
  intros Hdst Hsrc Hn H. unfold memmove. destruct (n =? 0) eqn:E.
  - apply Z.eqb_eq in E. subst n. unfold load. cbn [Z.to_nat firstn].
    now rewrite store_nil.
  - apply Z.eqb_neq in E. rewrite !in_range_true by lia. reflexivity.
Qed.

(** ** Blocks from the allocator *)

Lemma length_fresh_block (A : allocator) (n : Z) :
  length (fresh_block A n) = Z.to_nat n.
Proof. unfold fresh_block. now rewrite length_map, length_seq. Qed.

Lemma length_resize (A : allocator) (m : list byte) (n : Z) :
  length (resize A m n) = Z.to_nat n.
Proof. unfold resize. now rewrite length_map, length_seq. Qed.

(** [realloc] keeps the bytes the old block already had. *)
Lemma nth_error_resize (A : allocator) (m : list byte) (n : Z) (k : nat) :
  (k < length m)%nat -> (k < Z.to_nat n)%nat ->
  nth_error (resize A m n) k = nth_error m k.
Proof.
  intros Hm Hn. unfold resize.
  rewrite nth_error_map, nth_error_seq.
  replace (k <? Z.to_nat n)%nat with true by (symmetry; now apply Nat.ltb_lt).
  cbn. symmetry. now apply nth_error_nth'.
Qed.

Lemma skipn_repeat (c : byte) (k n : nat) :
  skipn k (repeat c n) = repeat c (n - k).
Proof.
  revert n. induction k as [| k IH]; intros [| n]; cbn; auto.
Qed.

Lemma uint_of_zero_bytes (k n : nat) :
  uint_of_bytes (firstn k (repeat zero_byte n)) = 0.
Proof.
  revert n. induction k as [| k IH]; intros [| n]; cbn [firstn repeat uint_of_bytes]; auto.
  rewrite IH. reflexivity.
Qed.

(** ** Creation *)

Lemma memset_whole (m : list byte) (c : byte) (n : Z) :
  length m = Z.to_nat n -> 0 <= n ->
  memset m 0 c n = Some (repeat c (Z.to_nat n)).
Proof.
  intros Hlen Hn. rewrite memset_defined by lia.
  unfold store. cbn [Z.to_nat firstn app Nat.add].
  rewrite repeat_length, skipn_all2 by lia. now rewrite app_nil_r.
Qed.

Lemma cvec_reserve_defined (A : allocator) (cap es : Z)
    (d : option cvec_elem_destructor) :
  0 <= cap -> 0 <= es -> sizeof_metadata + cap * es < uint64_modulus ->
  cvec_reserve A cap es d =
  Some (Vec {| base := place A; size := 0; capacity := cap; typesize := es;
               destructor := d;
               data := repeat zero_byte (Z.to_nat (cap * es)) |},
        [call_malloc (sizeof_metadata + cap * es)]).
Proof.
  intros Hcap Hes Hfit. unfold cvec_reserve.
  assert (Hmul : 0 <= cap * es) by nia.
  assert (H32 : 0 <= sizeof_metadata) by (unfold sizeof_metadata; lia).
  rewrite (wrap64_small (cap * es)) by lia.
  rewrite (wrap64_small (sizeof_metadata + cap * es)) by lia.
  cbv [malloc emit bind ret lift].
  rewrite memset_whole by (rewrite ?length_fresh_block; lia).
  replace (sizeof_metadata + cap * es <? sizeof_metadata) with false
    by (symmetry; apply Z.ltb_ge; lia).
  unfold load. cbn [Z.to_nat skipn app].
  rewrite uint_of_zero_bytes, skipn_repeat.
  do 5 f_equal. unfold sizeof_metadata. lia.
Qed.

(** ** Append *)

Lemma grown_capacity_gt (c : Z) : 0 <= c -> c < grown_capacity c.
Proof.
  intros H. unfold grown_capacity. destruct (c =? 0) eqn:E.
  - apply Z.eqb_eq in E. lia.
  - apply Z.eqb_neq in E. lia.
Qed.

(** The [memset] of the growth branch stays inside the grown block. *)
Lemma grow_memset_in_range (c es : Z) :
  0 <= c -> 0 <= es ->
  (grown_capacity c - c) * es = 0 \/
  c + (grown_capacity c - c) * es <= grown_capacity c * es.
Proof.
  intros Hc Hes. unfold grown_capacity. destruct (c =? 0) eqn:E.
  - apply Z.eqb_eq in E. subst c. right. lia.
  - apply Z.eqb_neq in E. destruct (Z.eq_dec es 0) as [-> | Hne].
    + left. lia.
    + right. nia.
Qed.

Lemma length_grown_data (A : allocator) (v : cvec) :
  wf v ->
  Z.of_nat (length (grown_data A v)) = grown_capacity (capacity v) * typesize v.
Proof.
  intros [Hsz Hes Hcap Hdata Hblk]. unfold grown_data.
  pose proof (grown_capacity_gt (capacity v)) as Hgt.
  assert (Hnew : 0 <= grown_capacity (capacity v) * typesize v) by nia.
  destruct (grow_memset_in_range (capacity v) (typesize v)) as [H0 | Hin];
    try lia.
  - rewrite H0. cbn [Z.to_nat repeat]. rewrite store_nil, length_resize. lia.
  - rewrite length_store; rewrite ?repeat_length, ?length_resize; nia.
Qed.

Lemma grow_defined (A : allocator) (v : cvec) :
  wf v -> fits v ->
  grow A v =
  Some ({| base := place A; size := size v;
           capacity := grown_capacity (capacity v);
           typesize := typesize v; destructor := destructor v;
           data := grown_data A v |},
        [call_realloc (base v)
           (sizeof_metadata + grown_capacity (capacity v) * typesize v)]).
Proof.
  intros Hwf [Hfc Hfb]. pose proof Hwf as [Hsz Hes Hcap Hdata Hblk].
  unfold doubling_fits, block_fits in *.
  pose proof (grown_capacity_gt (capacity v)) as Hgt.
  assert (Hnew : 0 <= grown_capacity (capacity v) * typesize v) by nia.
  assert (H32 : sizeof_metadata = 32) by reflexivity.
  unfold grow.
  replace (if capacity v =? 0 then 1 else wrap64 (capacity v * 2))
    with (grown_capacity (capacity v)).
  2:{ unfold grown_capacity in *. destruct (capacity v =? 0); [reflexivity |].
      symmetry. apply wrap64_small. lia. }
  rewrite (wrap64_small (grown_capacity (capacity v) * typesize v)) by lia.
  rewrite (wrap64_small (sizeof_metadata + _)) by lia.
  rewrite (wrap64_small (grown_capacity (capacity v) - capacity v)) by lia.
  rewrite (wrap64_small ((grown_capacity (capacity v) - capacity v) * typesize v))
    by nia.
  cbv [realloc emit bind ret lift].
  replace (sizeof_metadata + grown_capacity (capacity v) * typesize v <? sizeof_metadata)
    with false by (symmetry; apply Z.ltb_ge; lia).
  replace (sizeof_metadata + grown_capacity (capacity v) * typesize v - sizeof_metadata)
    with (grown_capacity (capacity v) * typesize v) by lia.
  rewrite memset_defined.
  - reflexivity.
  - lia.
  - nia.
  - rewrite length_resize.
    destruct (grow_memset_in_range (capacity v) (typesize v)); lia.
Qed.

(** Appending to a full buffer whose grown block is representable. *)
Lemma push_back_grows (A : allocator) (v : cvec) (e : list byte) :
  wf v -> size v = capacity v -> fits v ->
  typesize v <= Z.of_nat (length e) ->
  cvec_push_back A (Vec v) e =
  Some (Vec {| base := place A; size := size v + 1;
               capacity := grown_capacity (capacity v);
               typesize := typesize v; destructor := destructor v;
               data := store (grown_data A v) (size v * typesize v)
                         (firstn (Z.to_nat (typesize v)) e) |},
        [call_realloc (base v)
           (sizeof_metadata + grown_capacity (capacity v) * typesize v)]).
Proof.
  intros Hwf Hfull Hfits He. pose proof Hwf as [Hsz Hes Hcap Hdata Hblk].
  pose proof Hfits as [Hfc Hfb]. unfold doubling_fits, block_fits in *.
  pose proof (grown_capacity_gt (capacity v)) as Hgt.
  pose proof (length_grown_data A v Hwf) as Hlen.
  unfold cvec_push_back.
  replace (capacity v =? size v) with true by (symmetry; apply Z.eqb_eq; lia).
  rewrite grow_defined by assumption.
  cbv [bind ret lift]. cbn [base size capacity typesize destructor data].
  assert (H32 : sizeof_metadata = 32) by reflexivity.
  rewrite (wrap64_small (size v * typesize v)) by nia.
  rewrite (wrap64_small (size v + 1)) by lia.
  rewrite memcpy_defined; [reflexivity | nia | lia | right; nia | assumption].
Qed.

(** Appending to a buffer with a free slot. *)
Lemma push_back_in_place (A : allocator) (v : cvec) (e : list byte) :
  wf v -> size v < capacity v ->
  typesize v <= Z.of_nat (length e) ->
  cvec_push_back A (Vec v) e =
  Some (Vec {| base := base v; size := size v + 1;
               capacity := capacity v;
               typesize := typesize v; destructor := destructor v;
               data := store (data v) (size v * typesize v)
                         (firstn (Z.to_nat (typesize v)) e) |},
        []).
Proof.
  intros [Hsz Hes Hcap Hdata Hblk] Hfree He.
  unfold cvec_push_back.
  replace (capacity v =? size v) with false by (symmetry; apply Z.eqb_neq; lia).
  cbv [bind ret lift].
  assert (H32 : sizeof_metadata = 32) by reflexivity.
  rewrite (wrap64_small (size v * typesize v)) by nia.
  rewrite (wrap64_small (size v + 1)) by lia.
  rewrite memcpy_defined; [reflexivity | nia | lia | right; nia | assumption].
Qed.

(** ** Erase *)

Lemma wf_bounded (v : cvec) : wf v -> bounded v.
Proof.
  intros [Hsz Hes Hcap Hdata Hblk].
  constructor; unfold is_uint64; try lia; rewrite ?Hdata; try lia; nia.
Qed.

Lemma length_element (v : cvec) (i : Z) :
  bounded v -> 0 <= i < size v ->
  length (element v i) = Z.to_nat (typesize v).
Proof.
  intros [[Hs0 Hs1] [Hc0 Hc1] [He0 He1] Hlive Hdata Hblk] Hi. unfold element.
  apply length_load; nia.
Qed.

Lemma length_confined (v : cvec) (index : Z) (d : cvec_elem_destructor) :
  bounded v -> 0 <= index < size v ->
  Z.of_nat (length (confine (element v index) (d (element v index))))
  = typesize v.
Proof.
  intros Hwf Hi. pose proof Hwf as [[Hs0 Hs1] [Hc0 Hc1] [He0 He1] Hlive Hdata Hblk].
  rewrite length_confine, length_element by (auto; lia). lia.
Qed.

Lemma length_destructed (v : cvec) (index : Z) :
  bounded v -> 0 <= index < size v ->
  length (destructed v index) = length (data v).
Proof.
  intros Hwf Hi. pose proof Hwf as [[Hs0 Hs1] [Hc0 Hc1] [He0 He1] Hlive Hdata Hblk].
  unfold destructed. destruct (destructor v) as [d |]; [| reflexivity].
  apply length_store. rewrite length_confine, length_element by (auto; lia).
  nia.
Qed.

Lemma cvec_erase_defined (v : cvec) (index : Z) :
  bounded v -> 0 <= index < size v ->
  cvec_erase (Vec v) index =
  Some (Vec {| base := base v; size := size v - 1; capacity := capacity v;
               typesize := typesize v; destructor := destructor v;
               data := erased_data v index |},
        erase_events v index).
Proof.
  intros Hwf Hi. pose proof Hwf as [[Hs0 Hs1] [Hc0 Hc1] [He0 He1] Hlive Hdata Hblk].
  pose proof (length_destructed v index Hwf Hi) as Hlen.
  assert (H32 : sizeof_metadata = 32) by reflexivity.
  assert (B1 : 0 <= index * typesize v <= Z.of_nat (length (data v))) by nia.
  assert (B2 : 0 <= (index + 1) * typesize v <= Z.of_nat (length (data v))) by nia.
  assert (B3 : 0 <= (size v - (index + 1)) * typesize v) by nia.
  assert (B4 : (index + 1) * typesize v + (size v - (index + 1)) * typesize v
               <= Z.of_nat (length (data v))) by nia.
  unfold cvec_erase, erased_data, erase_events.
  rewrite Z.geb_leb.
  replace (size v <=? index) with false by (symmetry; apply Z.leb_gt; lia).
  rewrite (wrap64_small (index * typesize v)) by lia.
  rewrite (wrap64_small (index + 1)) by lia.
  rewrite (wrap64_small ((index + 1) * typesize v)) by lia.
  rewrite (wrap64_small (size v - (index + 1))) by lia.
  rewrite (wrap64_small ((size v - (index + 1)) * typesize v)) by lia.
  rewrite (wrap64_small (size v - 1)) by lia.
  revert Hlen. unfold destructed, run_destructor.
  destruct (destructor v) as [d |]; intros Hlen.
  - rewrite in_range_true by lia. fold (element v index).
    cbv [emit bind ret lift]. rewrite memmove_defined by lia.
    reflexivity.
  - cbv [emit bind ret lift]. rewrite memmove_defined by lia.
    reflexivity.
Qed.

(** ** Teardown *)

Lemma destroy_elements_defined (d : cvec_elem_destructor) (vec es : Z)
    (n : nat) :
  forall (i : Z) (m : list byte),
    0 <= es -> 0 <= i ->
    (i + Z.of_nat n) * es <= Z.of_nat (length m) ->
    Z.of_nat (length m) < uint64_modulus ->
    i + Z.of_nat n < uint64_modulus ->
    exists m',
      destroy_elements d vec es n i m =
      Some (m',
            map (fun k => call_destructor (vec + (i + Z.of_nat k) * es)
                            (load m ((i + Z.of_nat k) * es) es))
                (seq 0 n)).
Proof.
  induction n as [| n IH]; intros i m Hes Hi Hin Hmax Hcnt.
  - exists m. reflexivity.
  - cbn [destroy_elements].
    assert (B1 : 0 <= i * es) by nia.
    assert (B2 : i * es + es <= Z.of_nat (length m)) by nia.
    rewrite (wrap64_small (i * es)) by lia.
    rewrite (wrap64_small (i + 1)) by lia.
    unfold run_destructor. rewrite in_range_true by lia.
    set (bs := confine (load m (i * es) es) (d (load m (i * es) es))).
    assert (Hbs : length bs = Z.to_nat es).
    { unfold bs. rewrite length_confine. apply length_load; lia. }
    destruct (IH (i + 1) (store m (i * es) bs)) as [m' Hm']; try lia.
    + rewrite length_store by lia. nia.
    + rewrite length_store by lia. lia.
    + exists m'. cbv [emit bind ret]. rewrite Hm'. cbn [app]. do 2 f_equal.
      cbn [seq map]. rewrite <- seq_shift, map_map. f_equal.
      * rewrite Z.add_0_r. reflexivity.
      * symmetry. apply map_ext_in. intros k Hk.
        replace (i + 1 + Z.of_nat k) with (i + Z.of_nat (S k)) by lia.
        f_equal. symmetry. apply load_store_other; try nia; lia.
Qed.

Lemma cvec_free_defined (v : cvec) :
  bounded v ->
  cvec_free (Vec v) = Some (tt, destroy_events v ++ [call_free (base v)]).
Proof.
  intros [[Hs0 Hs1] [Hc0 Hc1] [He0 He1] Hlive Hdata Hblk].
  assert (H32 : sizeof_metadata = 32) by reflexivity.
  unfold cvec_free, destroy_events. destruct (destructor v) as [d |].
  - destruct (destroy_elements_defined d (address (Vec v)) (typesize v)
                (Z.to_nat (size v)) 0 (data v)) as [m' Hm']; try nia; try lia.
    rewrite Hm'. cbv [emit bind ret]. unfold indices.
    rewrite map_map, app_nil_r. reflexivity.
  - reflexivity.
Qed.

(** ** Elements under the storage updates *)

Lemma load_store_inside (m : list byte) (off : Z) (bs : list byte) (p n : Z) :
  0 <= off -> 0 <= p -> 0 <= n ->
  off <= Z.of_nat (length m) ->
  p + n <= Z.of_nat (length bs) ->
  load (store m off bs) (off + p) n = load bs p n.
Proof.
  intros Hoff Hp Hn Hin Hbs. apply load_ext. intros k Hk.
  rewrite nth_error_store by lia.
  replace (Z.to_nat (off + p) + k <? Z.to_nat off)%nat with false
    by (symmetry; apply Nat.ltb_ge; lia).
  replace (Z.to_nat (off + p) + k <? Z.to_nat off + length bs)%nat with true
    by (symmetry; apply Nat.ltb_lt; lia).
  f_equal. lia.
Qed.

Lemma load_load (m : list byte) (src len p n : Z) :
  0 <= src -> 0 <= p -> 0 <= n -> p + n <= len ->
  load (load m src len) p n = load m (src + p) n.
Proof.
  intros Hsrc Hp Hn Hlen. apply load_ext. intros k Hk.
  rewrite nth_error_load.
  replace (Z.to_nat p + k <? Z.to_nat len)%nat with true
    by (symmetry; apply Nat.ltb_lt; lia).
  f_equal. lia.
Qed.

Lemma load_repeat (c : byte) (N : nat) (off n : Z) :
  0 <= off -> 0 <= n -> off + n <= Z.of_nat N ->
  load (repeat c N) off n = repeat c (Z.to_nat n).
Proof.
  intros Hoff Hn Hin. apply nth_error_ext. intros k.
  rewrite nth_error_load. destruct (k <? Z.to_nat n)%nat eqn:E.
  - apply Nat.ltb_lt in E. rewrite !nth_error_repeat by lia. reflexivity.
  - apply Nat.ltb_ge in E. symmetry. apply nth_error_None.
    rewrite repeat_length. lia.
Qed.

(** Erase leaves the elements below the removed index alone. *)
Lemma erased_below (v : cvec) (index j : Z) :
  bounded v -> 0 <= index < size v -> 0 <= j < index ->
  load (erased_data v index) (j * typesize v) (typesize v) = element v j.
Proof.
  intros Hwf Hi Hj. pose proof Hwf as [[Hs0 Hs1] [Hc0 Hc1] [He0 He1] Hlive Hdata Hblk].
  pose proof (length_destructed v index Hwf Hi) as Hlen.
  assert (B1 : 0 <= index * typesize v <= Z.of_nat (length (data v))) by nia.
  assert (B3 : 0 <= (size v - (index + 1)) * typesize v) by nia.
  assert (B4 : (index + 1) * typesize v + (size v - (index + 1)) * typesize v
               <= Z.of_nat (length (data v))) by nia.
  unfold erased_data. cbv zeta.
  rewrite load_store_other; try (rewrite ?length_load by nia; nia).
  unfold destructed, element. destruct (destructor v) as [d |]; [| reflexivity].
  pose proof (length_confined v index d Hwf Hi) as Hcf.
  unfold element in Hcf. apply load_store_other; nia.
Qed.

(** Erase moves every element above the removed index one slot down. *)
Lemma erased_above (v : cvec) (index j : Z) :
  bounded v -> 0 <= index < size v -> index <= j < size v - 1 ->
  load (erased_data v index) (j * typesize v) (typesize v) = element v (j + 1).
Proof.
  intros Hwf Hi Hj. pose proof Hwf as [[Hs0 Hs1] [Hc0 Hc1] [He0 He1] Hlive Hdata Hblk].
  pose proof (length_destructed v index Hwf Hi) as Hlen.
  assert (B1 : 0 <= index * typesize v <= Z.of_nat (length (data v))) by nia.
  assert (B2 : 0 <= (index + 1) * typesize v) by nia.
  assert (B3 : 0 <= (size v - (index + 1)) * typesize v) by nia.
  assert (B4 : (index + 1) * typesize v + (size v - (index + 1)) * typesize v
               <= Z.of_nat (length (data v))) by nia.
  assert (B5 : 0 <= (j - index) * typesize v) by nia.
  assert (B6 : (j - index) * typesize v + typesize v
               <= (size v - (index + 1)) * typesize v) by nia.
  unfold erased_data. cbv zeta.
  replace (j * typesize v) with (index * typesize v + (j - index) * typesize v)
    by lia.
  rewrite load_store_inside; try lia.
  2:{ rewrite length_load by lia. lia. }
  rewrite load_load by lia.
  replace ((index + 1) * typesize v + (j - index) * typesize v)
    with ((j + 1) * typesize v) by lia.
  unfold destructed, element. destruct (destructor v) as [d |]; [| reflexivity].
  pose proof (length_confined v index d Hwf Hi) as Hcf.
  unfold element in Hcf. apply load_store_other; nia.
Qed.

(** Erase does not touch the last live slot (unless it is the one removed),
    nor any slot beyond it. *)
Lemma erased_beyond (v : cvec) (index j : Z) :
  bounded v -> 0 <= index < size v -> index < j -> size v - 1 <= j ->
  load (erased_data v index) (j * typesize v) (typesize v) = element v j.
Proof.
  intros Hwf Hi Hlt Hj. pose proof Hwf as [[Hs0 Hs1] [Hc0 Hc1] [He0 He1] Hlive Hdata Hblk].
  pose proof (length_destructed v index Hwf Hi) as Hlen.
  assert (B1 : 0 <= index * typesize v <= Z.of_nat (length (data v))) by nia.
  assert (B3 : 0 <= (size v - (index + 1)) * typesize v) by nia.
  assert (B4 : (index + 1) * typesize v + (size v - (index + 1)) * typesize v
               <= Z.of_nat (length (data v))) by nia.
  unfold erased_data. cbv zeta.
  rewrite load_store_other; try (rewrite ?length_load by nia; nia).
  unfold destructed, element. destruct (destructor v) as [d |]; [| reflexivity].
  pose proof (length_confined v index d Hwf Hi) as Hcf.
  unfold element in Hcf. apply load_store_other; nia.
Qed.

(** An append in place leaves every other slot alone. *)
Lemma appended_other (v : cvec) (e : list byte) (j : Z) :
  wf v -> size v < capacity v -> typesize v <= Z.of_nat (length e) ->
  0 <= j -> j <> size v ->
  load (store (data v) (size v * typesize v) (firstn (Z.to_nat (typesize v)) e))
       (j * typesize v) (typesize v)
  = element v j.
Proof.
  intros [Hsz Hes Hcap Hdata Hblk] Hfree He Hj Hne. unfold element.
  apply load_store_other; try nia; rewrite length_firstn; nia.
Qed.

(** The appended element is read back from the slot it was copied to. *)
Lemma appended_last (m : list byte) (off : Z) (e : list byte) (es : Z) :
  0 <= off -> off <= Z.of_nat (length m) ->
  0 <= es -> es <= Z.of_nat (length e) ->
  load (store m off (firstn (Z.to_nat es) e)) off es = firstn (Z.to_nat es) e.
Proof.
  intros Hoff Hin Hes He.
  replace es with (Z.of_nat (length (firstn (Z.to_nat es) e))) at 2
    by (rewrite length_firstn; lia).
  now apply load_store_same.
Qed.

(** ** Reachable buffers *)

Lemma memset_length (m : list byte) (off : Z) (c : byte) (n : Z)
    (m' : list byte) :
  memset m off c n = Some m' -> length m' = length m.
Proof.
  unfold memset. destruct (n =? 0); [now intros [= <-] |].
  destruct (in_range m off n) eqn:E; [| discriminate]. intros [= <-].
  apply in_range_inv in E. apply length_store. rewrite repeat_length. lia.
Qed.

Lemma memcpy_inv (m : list byte) (off : Z) (src : list byte) (n : Z)
    (m' : list byte) :
  memcpy m off src n = Some m' ->
  length m' = length m /\
  (n = 0 \/ (0 <= off /\ 0 <= n /\ off + n <= Z.of_nat (length m))).
Proof.
  unfold memcpy. destruct (n =? 0) eqn:E0.
  - intros [= <-]. apply Z.eqb_eq in E0. auto.
  - destruct (in_range m off n) eqn:E; [| discriminate].
    destruct (n <=? Z.of_nat (length src)) eqn:E1; [| discriminate].
    cbn [andb]. intros [= <-].
    apply in_range_inv in E. apply Z.leb_le in E1. split.
    + apply length_store. rewrite length_firstn. lia.
    + right. lia.
Qed.

Lemma memmove_length (m : list byte) (dst src n : Z) (m' : list byte) :
  memmove m dst src n = Some m' -> length m' = length m.
Proof.
  unfold memmove. destruct (n =? 0); [now intros [= <-] |].
  destruct (in_range m dst n) eqn:E; [| discriminate].
  destruct (in_range m src n) eqn:E1; [| discriminate].
  cbn [andb]. intros [= <-].
  apply in_range_inv in E. apply in_range_inv in E1.
  apply length_store. rewrite length_load by lia. lia.
Qed.

Lemma run_destructor_length (d : cvec_elem_destructor) (vec : Z)
    (m : list byte) (off n : Z) (m' : list byte) (evs : list event) :
  run_destructor d vec m off n = Some (m', evs) -> length m' = length m.
Proof.
  unfold run_destructor. destruct (in_range m off n) eqn:E; [| discriminate].
  cbv [emit bind ret]. intros [= <- _]. apply in_range_inv in E.
  apply length_store. rewrite length_confine, length_load by lia. lia.
Qed.

(** What [cvec_reserve] returns whenever it is defined, wrapped or not. *)
Lemma cvec_reserve_inv (A : allocator) (cap es : Z)
    (d : option cvec_elem_destructor) (v : cvec) (evs : list event) :
  cvec_reserve A cap es d = Some (Vec v, evs) ->
  sizeof_metadata <= wrap64 (sizeof_metadata + wrap64 (cap * es)) /\
  v = {| base := place A; size := 0; capacity := cap; typesize := es;
         destructor := d;
         data := repeat zero_byte
                   (Z.to_nat (wrap64 (sizeof_metadata + wrap64 (cap * es))
                              - sizeof_metadata)) |}.
Proof.
  unfold cvec_reserve.
  set (n := wrap64 (sizeof_metadata + wrap64 (cap * es))).
  assert (Hn : 0 <= n) by apply wrap64_range.
  cbv [malloc emit bind ret lift].
  rewrite memset_whole by (rewrite ?length_fresh_block; lia).
  unfold load. cbn [Z.to_nat skipn].
  rewrite uint_of_zero_bytes, skipn_repeat.
  destruct (n <? sizeof_metadata) eqn:E; [discriminate |].
  apply Z.ltb_ge in E. intros [= <- _]. split; [assumption |].
  do 2 f_equal. unfold sizeof_metadata in *. lia.
Qed.

Lemma bounded_reserve (A : allocator) (cap es : Z)
    (d : option cvec_elem_destructor) (v : cvec) (evs : list event) :
  is_uint64 cap -> is_uint64 es ->
  cvec_reserve A cap es d = Some (Vec v, evs) -> bounded v.
Proof.
  intros Hcap Hes H. apply cvec_reserve_inv in H as [Hn ->].
  pose proof (wrap64_range (sizeof_metadata + wrap64 (cap * es))) as Hr.
  pose proof (wrap64_range (cap * es)) as Hr'.
  assert (Hmul : 0 <= cap * es) by (unfold is_uint64 in *; nia).
  pose proof (wrap64_le (cap * es) Hmul) as Hle.
  assert (Hle' : wrap64 (sizeof_metadata + wrap64 (cap * es))
                 <= sizeof_metadata + wrap64 (cap * es)).
  { apply wrap64_le. unfold sizeof_metadata. lia. }
  constructor; cbn [size capacity typesize data]; rewrite ?repeat_length;
    unfold is_uint64, sizeof_metadata in *; lia.
Qed.

Lemma bounded_push_back (A : allocator) (v : cvec) (e : list byte)
    (v' : cvec) (evs : list event) :
  bounded v ->
  cvec_push_back A (Vec v) e = Some (Vec v', evs) -> bounded v'.
Proof.
  intros [Hsz Hcap Hes Hlive Hdata Hblk] H.
  unfold is_uint64 in *.
  assert (H32 : sizeof_metadata = 32) by reflexivity.
  assert (Hmul : 0 <= size v * typesize v) by nia.
  pose proof (wrap64_range (size v + 1)) as Hr.
  assert (Hs1 : wrap64 (size v + 1) <= size v + 1) by (apply wrap64_le; lia).
  unfold cvec_push_back in H.
  rewrite (wrap64_small (size v * typesize v)) in H by lia.
  destruct (capacity v =? size v) eqn:Efull.
  - (* the buffer is full: the block is resized first *)
    unfold grow in H.
    set (nc := if capacity v =? 0 then 1 else wrap64 (capacity v * 2)) in H.
    assert (Hnc : 0 <= nc < uint64_modulus).
    { unfold nc. destruct (capacity v =? 0); [unfold uint64_modulus; lia |].
      apply wrap64_range. }
    set (n := wrap64 (sizeof_metadata + wrap64 (nc * typesize v))) in H.
    assert (Hn : 0 <= n < uint64_modulus) by apply wrap64_range.
    assert (Hnle : n <= sizeof_metadata + nc * typesize v).
    { assert (0 <= nc * typesize v) by nia.
      pose proof (wrap64_le (nc * typesize v)).
      pose proof (wrap64_range (nc * typesize v)).
      unfold n. etransitivity; [apply wrap64_le |]; lia. }
    cbv [realloc emit bind ret lift] in H.
    destruct (n <? sizeof_metadata) eqn:En; [discriminate |].
    apply Z.ltb_ge in En.
    destruct (memset _ _ _ _) as [m2 |] eqn:E2; [| discriminate].
    cbn [base size capacity typesize destructor data] in H.
    destruct (memcpy _ _ _ _) as [m3 |] eqn:E3; [| discriminate].
    injection H as <- _.
    apply memset_length in E2. rewrite length_resize in E2.
    apply memcpy_inv in E3 as [E3 Hin]. rewrite E2 in E3, Hin.
    constructor; cbn [size capacity typesize data]; unfold is_uint64;
      rewrite ?E3; try lia.
    destruct Hin as [-> | Hin]; nia.
  - (* a slot is free: the element is copied in place *)
    cbv [bind ret lift] in H.
    destruct (memcpy _ _ _ _) as [m3 |] eqn:E3; [| discriminate].
    injection H as <- _.
    apply memcpy_inv in E3 as [E3 Hin].
    constructor; cbn [size capacity typesize data]; unfold is_uint64;
      rewrite ?E3; try lia.
    destruct Hin as [Hz | Hin]; [rewrite Hz in *|]; nia.
Qed.

Lemma bounded_erase (v : cvec) (index : Z) (v' : cvec) (evs : list event) :
  bounded v -> 0 <= index ->
  cvec_erase (Vec v) index = Some (Vec v', evs) -> bounded v'.
Proof.
  intros Hb Hi H. pose proof Hb as [Hsz Hcap Hes Hlive Hdata Hblk].
  unfold is_uint64 in *.
  unfold cvec_erase in H. rewrite Z.geb_leb in H.
  destruct (size v <=? index) eqn:Eout.
  - injection H as <- _. assumption.
  - apply Z.leb_gt in Eout.
    rewrite (wrap64_small (size v - 1)) in H by lia.
    assert (Hm1 : exists m1 ev1,
               match destructor v with
               | Some d => run_destructor d (address (Vec v)) (data v)
                             (wrap64 (index * typesize v)) (typesize v)
               | None => ret (data v)
               end = Some (m1, ev1) /\ length m1 = length (data v)).
    { destruct (destructor v) as [d |].
      - destruct (run_destructor _ _ _ _ _) as [[m1 ev1] |] eqn:E1;
          [| discriminate].
        exists m1, ev1. split; [reflexivity |].
        now apply run_destructor_length in E1.
      - exists (data v), []. split; reflexivity. }
    destruct Hm1 as (m1 & ev1 & Hrun & Hlen1). rewrite Hrun in H.
    cbv [bind ret lift] in H.
    destruct (memmove _ _ _ _) as [m2 |] eqn:E2; [| discriminate].
    injection H as <- _. apply memmove_length in E2.
    constructor; cbn [size capacity typesize data]; unfold is_uint64;
      rewrite ?E2, ?Hlen1; lia.
Qed.

Lemma reachable_bounded (v : cvec) : reachable v -> bounded v.
Proof.
  induction 1 as [A cap es d v evs Hcap Hes H
                 | A v e v' evs _ IH H
                 | v index v' evs _ IH Hi H].
  - now apply (bounded_reserve A cap es d v evs).
  - now apply (bounded_push_back A v e v' evs).
  - apply (bounded_erase v index v' evs); try assumption. apply Hi.
Qed.


(** ** What a defined call returns, wrapped or not *)


Lemma cvec_erase_inv (v : cvec) (index : Z) (v' : cvec) (evs : list event) :
  cvec_erase (Vec v) index = Some (Vec v', evs) ->
  capacity v' = capacity v /\
  typesize v' = typesize v /\
  size v' = (if index >=? size v then size v else wrap64 (size v - 1)).
Proof.
  unfold cvec_erase. destruct (index >=? size v).
  - intros [= <- _]. auto.
  - destruct (match destructor v with Some _ => _ | None => _ end)
      as [[m1 ev1] |]; [| discriminate].
    cbv [bind ret lift]. destruct (memmove _ _ _ _); [| discriminate].
    intros [= <- _]. cbn. auto.
Qed.


(** ** Null handles *)

(** C8.  On a null handle every operation is benign: the three counters
    read 0, [cvec_empty] is true, [cvec_push_back] returns null, and
    [cvec_push_back], [cvec_erase] and [cvec_free] call neither the
    allocator nor a destructor. *)
Theorem null_handle_is_benign :
  cvec_get_sz NULL = 0 /\
  cvec_get_capacity NULL = 0 /\
  cvec_get_type_sz NULL = 0 /\
  cvec_empty NULL = 1 /\
  (forall A x, cvec_push_back A NULL x = Some (NULL, [])) /\
  (forall i, cvec_erase NULL i = Some (NULL, [])) /\
  cvec_free NULL = Some (tt, []).
Proof. repeat split. Qed.

(** ** Erase out of range *)

(** C9.  With [index >= size] (the case [index = size] included),
    [cvec_erase] leaves the handle pointing at the very same block: size,
    capacity, element size and every stored byte are unchanged, and the
    destructor is not called. *)
Theorem erase_out_of_range_is_no_op (v : cvec) (index : Z) :
  size v <= index ->
  cvec_erase (Vec v) index = Some (Vec v, []).
Proof.
  intros H. unfold cvec_erase. rewrite Z.geb_leb.
  replace (size v <=? index) with true by (symmetry; now apply Z.leb_le).
  reflexivity.
Qed.

Lemma erase_out_of_range_witness :
  size four_of_six <= 4 /\
  cvec_erase (Vec four_of_six) 4 = Some (Vec four_of_six, []) /\
  cvec_erase (Vec four_of_six) (4 + 5) = Some (Vec four_of_six, []).
Proof.
  split; [cbn; lia |].
  split; apply erase_out_of_range_is_no_op; cbn; lia.
Defined.

(** ** Append with room *)

(** C10.  On a well-formed buffer with [size < capacity], given an element
    of at least [typesize] readable bytes, [cvec_push_back] does not
    reallocate: no allocator call is made, the returned handle holds the
    address it was given, capacity and element size are unchanged, and so
    are the bytes of every element stored before. *)
Theorem push_back_with_room_keeps_block (A : allocator) (v : cvec)
    (e : list byte) :
  wf v -> size v < capacity v -> typesize v <= Z.of_nat (length e) ->
  exists v',
    cvec_push_back A (Vec v) e = Some (Vec v', []) /\
    address (Vec v') = address (Vec v) /\
    capacity v' = capacity v /\
    typesize v' = typesize v /\
    forall i, 0 <= i < size v -> element v' i = element v i.
Proof.
  intros Hwf Hroom He. eexists. split.
  - now apply push_back_in_place.
  - cbn [base size capacity typesize data address]. repeat split.
    intros i Hi. unfold element at 1. cbn [data typesize].
    apply appended_other; auto; lia.
Qed.

Lemma push_back_with_room_witness :
  exists v',
    cvec_push_back (heap_at 8192) (Vec four_of_six) [x50; x51]
      = Some (Vec v', []) /\
    address (Vec v') = address (Vec four_of_six) /\
    capacity v' = capacity four_of_six /\
    typesize v' = typesize four_of_six /\
    forall i, 0 <= i < size four_of_six -> element v' i = element four_of_six i.
Proof.
  apply push_back_with_room_keeps_block.
  - constructor; vm_compute; easy.
  - cbn; lia.
  - cbn; lia.
Defined.

(** ** Erase in range *)

(** C5.  With [index < size], [cvec_erase] calls the destructor, when one is
    set, exactly once and on the bytes slot [index] holds before anything is
    moved; no other call is made.  Afterwards every element formerly at
    [j > index] is found at [j - 1], the elements below [index] are
    unchanged, size is one less and capacity is the same.  The buffer is any
    buffer satisfying [bounded]: every reachable one ([reachable_bounded])
    and every well-formed one ([wf_bounded]). *)
Theorem erase_compacts (v : cvec) (index : Z) :
  bounded v -> 0 <= index < size v ->
  exists v',
    cvec_erase (Vec v) index =
      Some (Vec v',
            match destructor v with
            | Some _ => [call_destructor (address (Vec v) + index * typesize v)
                           (element v index)]
            | None => []
            end) /\
    size v' = size v - 1 /\
    capacity v' = capacity v /\
    typesize v' = typesize v /\
    (forall j, 0 <= j < index -> element v' j = element v j) /\
    (forall j, index < j < size v -> element v' (j - 1) = element v j).
Proof.
  intros Hwf Hi. eexists. split.
  - now apply cvec_erase_defined.
  - cbn [size capacity typesize]. repeat split.
    + intros j Hj. unfold element at 1. cbn [data typesize].
      now apply erased_below.
    + intros j Hj. unfold element at 1. cbn [data typesize].
      replace j with (j - 1 + 1) at 2 by lia.
      apply erased_above; auto; lia.
Qed.

Lemma erase_compacts_witness :
  exists v',
    cvec_erase (Vec four_of_six) 1 =
      Some (Vec v', [call_destructor (4128 + 2) [x20; x21]]) /\
    size v' = 3 /\
    capacity v' = 6 /\
    typesize v' = 2 /\
    (forall j, 0 <= j < 1 -> element v' j = element four_of_six j) /\
    (forall j, 1 < j < 4 -> element v' (j - 1) = element four_of_six j).
Proof.
  apply (erase_compacts four_of_six 1).
  - constructor; vm_compute; intuition congruence.
  - cbn; lia.
Defined.

(** ** Teardown *)

(** C7.  [cvec_free] on a buffer of [N] live elements with a destructor set
    calls it [N] times, on the elements at indices [0, 1, ..., N-1] in that
    order, and only then releases the block; with no destructor set the
    release is the only call.  The buffer is any buffer satisfying
    [bounded]: every reachable one and every well-formed one. *)
Theorem destroy_cleans_every_element (v : cvec) :
  bounded v ->
  exists calls,
    cvec_free (Vec v) = Some (tt, calls ++ [call_free (base v)]) /\
    (destructor v = None -> calls = []) /\
    (destructor v <> None ->
     length calls = Z.to_nat (size v) /\
     calls = map (fun i => call_destructor
                             (address (Vec v) + i * typesize v)
                             (element v i))
                 (indices (size v))).
Proof.
  intros Hwf. exists (destroy_events v). split.
  - now apply cvec_free_defined.
  - unfold destroy_events. destruct (destructor v) as [d |].
    + split; [discriminate |]. intros _. split; [| reflexivity].
      unfold indices. now rewrite !length_map, length_seq.
    + split; [reflexivity |]. intros H. now contradiction H.
Qed.

Lemma destroy_cleans_every_element_witness :
  cvec_free (Vec four_of_six) =
  Some (tt, [call_destructor 4128 [x10; x11];
             call_destructor 4130 [x20; x21];
             call_destructor 4132 [x30; x31];
             call_destructor 4134 [x40; x41];
             call_free 4096]).
Proof.
  destruct (destroy_cleans_every_element four_of_six) as (calls & H & _ & Hd).
  - constructor; vm_compute; intuition congruence.
  - destruct Hd as [_ ->]; [discriminate |]. exact H.
Defined.

(** ** Append, defined *)

(** One statement for both branches of [cvec_push_back]. *)
Lemma push_back_defined (A : allocator) (v : cvec) (e : list byte) :
  wf v -> (size v = capacity v -> fits v) ->
  typesize v <= Z.of_nat (length e) ->
  exists v' evs,
    cvec_push_back A (Vec v) e = Some (Vec v', evs) /\
    wf v' /\
    size v' = size v + 1 /\
    typesize v' = typesize v /\
    capacity v' = (if size v =? capacity v
                   then grown_capacity (capacity v) else capacity v) /\
    element v' (size v) = firstn (Z.to_nat (typesize v)) e.
Proof.
  intros Hwf Hfits He. pose proof Hwf as [Hsz Hes Hcap Hdata Hblk].
  destruct (Z.eq_dec (size v) (capacity v)) as [Hfull | Hroom].
  - specialize (Hfits Hfull). pose proof Hfits as [Hfc Hfb].
    unfold doubling_fits, block_fits in *.
    pose proof (grown_capacity_gt (capacity v)) as Hgt.
    pose proof (length_grown_data A v Hwf) as Hlen.
    do 2 eexists. split; [now apply push_back_grows |].
    replace (size v =? capacity v) with true by (symmetry; now apply Z.eqb_eq).
    cbn [size capacity typesize data]. repeat split; cbn [size capacity typesize data]; try lia.
    + rewrite length_store; [lia |]. rewrite length_firstn. nia.
    + unfold element. cbn [data typesize]. apply appended_last; nia.
  - do 2 eexists. split; [apply push_back_in_place; auto; lia |].
    replace (size v =? capacity v) with false by (symmetry; now apply Z.eqb_neq).
    cbn [size capacity typesize data]. repeat split; cbn [size capacity typesize data]; try lia.
    + rewrite length_store; [lia |]. rewrite length_firstn. nia.
    + unfold element. cbn [data typesize]. apply appended_last; nia.
Qed.

(** ** Well-formedness is kept *)

Lemma wf_reserve (A : allocator) (cap es : Z)
    (d : option cvec_elem_destructor) :
  is_uint64 cap -> is_uint64 es ->
  sizeof_metadata + cap * es < uint64_modulus ->
  exists v evs, cvec_reserve A cap es d = Some (Vec v, evs) /\ wf v.
Proof.
  intros [Hc0 Hc1] [He0 He1] Hfit. do 2 eexists.
  split; [now apply cvec_reserve_defined |].
  constructor; cbn [size capacity typesize data]; rewrite ?repeat_length;
    try lia; nia.
Qed.

Lemma cvec_erase_length (v : cvec) (index : Z) (v' : cvec)
    (evs : list event) :
  cvec_erase (Vec v) index = Some (Vec v', evs) ->
  length (data v') = length (data v).
Proof.
  unfold cvec_erase. destruct (index >=? size v).
  - now intros [= <- _].
  - destruct (destructor v) as [d |].
    + destruct (run_destructor _ _ _ _ _) as [[m1 ev1] |] eqn:E1;
        [| discriminate].
      apply run_destructor_length in E1. cbv [bind ret lift].
      destruct (memmove _ _ _ _) as [m2 |] eqn:E2; [| discriminate].
      apply memmove_length in E2. intros [= <- _]. cbn. congruence.
    + cbv [bind ret lift].
      destruct (memmove _ _ _ _) as [m2 |] eqn:E2; [| discriminate].
      apply memmove_length in E2. intros [= <- _]. cbn. congruence.
Qed.

Lemma wf_erase (v : cvec) (index : Z) (v' : cvec) (evs : list event) :
  wf v -> 0 <= index ->
  cvec_erase (Vec v) index = Some (Vec v', evs) -> wf v'.
Proof.
  intros [Hsz Hes Hcap Hdata Hblk] Hi H.
  pose proof (cvec_erase_length _ _ _ _ H) as Hlen.
  apply cvec_erase_inv in H as (Hc & Ht & Hs).
  rewrite Z.geb_leb in Hs.
  assert (Hs' : 0 <= size v' <= size v).
  { destruct (size v <=? index) eqn:E; [lia |].
    apply Z.leb_gt in E. rewrite wrap64_small in Hs; lia. }
  constructor; rewrite ?Hc, ?Ht, ?Hlen; lia.
Qed.

(** ** Buffers of zero-width elements *)




(** ** Append and read back *)




(** ** Capacity bounds size *)



Lemma reachable_grown_pair : reachable grown_pair.
Proof.
  eapply (reachable_push_back (heap_at 8192) _ [x20; x21]);
    [eapply (reachable_push_back (heap_at 4096) _ [x10; x11]);
     [eapply (reachable_reserve (heap_at 4096) 1 2 None) |] |].
  - vm_compute; intuition congruence.
  - vm_compute; intuition congruence.
  - vm_compute. reflexivity.
  - vm_compute. reflexivity.
  - vm_compute. reflexivity.
Qed.


(** ** The growth law *)

Lemma capacity_after_succ (n : Z) :
  0 <= n ->
  capacity_after (n + 1) =
  if n =? capacity_after n then grown_capacity n else capacity_after n.
Proof.
  intros Hn. unfold capacity_after, grown_capacity.
  replace (n + 1 =? 0) with false by (symmetry; apply Z.eqb_neq; lia).
  destruct (n =? 0) eqn:E0.
  - apply Z.eqb_eq in E0. subst n. reflexivity.
  - apply Z.eqb_neq in E0.
    pose proof (Z.log2_up_nonneg n) as Hk.
    destruct (n =? 2 ^ Z.log2_up n) eqn:Epow.
    + apply Z.eqb_eq in Epow.
      rewrite Epow at 1. change (2 ^ Z.log2_up n + 1) with (Z.succ (2 ^ Z.log2_up n)).
      rewrite Z.log2_up_succ_pow2 by assumption.
      rewrite Z.pow_succ_r by assumption. lia.
    + apply Z.eqb_neq in Epow.
      assert (H1 : 1 < n).
      { destruct (Z.eq_dec n 1) as [-> | ]; [| lia].
        now contradiction Epow. }
      pose proof (Z.log2_up_spec n H1) as [Hlo Hhi].
      f_equal. apply Z.log2_up_unique.
      * apply Z.log2_up_pos. assumption.
      * lia.
Qed.





(** ** The spare slots *)

(** C2, as stated, fails after an erase: [single] is reachable (reserve one
    slot, append one byte) and has no spare slot; erasing index 0 makes slot
    0 spare, and it still holds the erased byte. *)
Lemma erase_leaves_stale_bytes :
  reachable single /\
  spare_slots_zero single /\
  cvec_erase (Vec single) 0 = Some (Vec emptied, []) /\
  reachable emptied /\
  ~ spare_slots_zero emptied.
Proof.
  assert (Hr : reachable single).
  { eapply (reachable_push_back (heap_at 4096) _ [x2a]);
      [eapply (reachable_reserve (heap_at 4096) 1 1 None) |].
    - vm_compute; intuition congruence.
    - vm_compute; intuition congruence.
    - vm_compute. reflexivity.
    - vm_compute. reflexivity. }
  assert (He : cvec_erase (Vec single) 0 = Some (Vec emptied, [])).
  { vm_compute. reflexivity. }
  split; [exact Hr |]. split; [| split; [exact He |]; split].
  - intros i Hi. cbn in Hi. lia.
  - apply (reachable_erase single 0 emptied [] Hr); [| exact He].
    vm_compute; intuition congruence.
  - intros H. specialize (H 0). unfold zero_slot in H.
    assert (Hi : size emptied <= 0 < capacity emptied) by (cbn; lia).
    specialize (H Hi). vm_compute in H. discriminate H.
Qed.

(** C2, amended.  [cvec_reserve] returns a buffer whose slots are all zero,
    and an append that does not grow keeps every slot in [size, capacity)
    zero.  [cvec_erase] zeroes nothing: after it removes a valid index the
    slots that were spare before are still zero, while the slot it vacates
    (index [size] of the result) keeps the bytes of the former last element
    whenever another element was removed or no destructor is set. *)
Theorem spare_slots_zero_until_erase :
  (forall A cap es d,
      0 <= cap -> 0 <= es -> sizeof_metadata + cap * es < uint64_modulus ->
      exists v evs,
        cvec_reserve A cap es d = Some (Vec v, evs) /\
        forall i, 0 <= i < capacity v -> zero_slot v i) /\
  (forall A v e,
      wf v -> size v < capacity v -> typesize v <= Z.of_nat (length e) ->
      spare_slots_zero v ->
      exists v',
        cvec_push_back A (Vec v) e = Some (Vec v', []) /\
        spare_slots_zero v') /\
  (forall v index,
      wf v -> 0 <= index < size v -> spare_slots_zero v ->
      exists v' evs,
        cvec_erase (Vec v) index = Some (Vec v', evs) /\
        (forall i, size v' < i < capacity v' -> zero_slot v' i) /\
        (index < size v - 1 \/ destructor v = None ->
         element v' (size v') = element v (size v - 1))).
Proof.
  split; [| split].
  - intros A cap es d Hcap Hes Hfit. do 2 eexists.
    split; [now apply cvec_reserve_defined |].
    cbn [capacity]. intros i Hi. unfold zero_slot, element.
    cbn [data typesize]. apply load_repeat; nia.
  - intros A v e Hwf Hroom He Hzero. pose proof Hwf as [Hsz _ _ _ _].
    eexists. split; [now apply push_back_in_place |].
    intros i Hi. cbn [size capacity] in Hi.
    unfold zero_slot, element. cbn [data typesize].
    rewrite appended_other by (auto; lia). apply Hzero. lia.
  - intros v index Hwf Hi Hzero. pose proof Hwf as [Hsz _ _ _ _].
    apply wf_bounded in Hwf.
    do 2 eexists. split; [now apply cvec_erase_defined |].
    cbn [size capacity]. split.
    + intros i Hr. unfold zero_slot, element. cbn [data typesize].
      rewrite erased_beyond by (auto; lia). apply Hzero. lia.
    + intros Hstale. unfold element at 1. cbn [data typesize].
      destruct (Z.eq_dec index (size v - 1)) as [Hlast | Hnot].
      * destruct Hstale as [Hlt | Hnone]; [lia |].
        unfold erased_data, destructed. rewrite Hnone. cbv zeta.
        replace ((size v - (index + 1)) * typesize v) with 0 by nia.
        unfold load at 1. cbn [Z.to_nat firstn]. now rewrite store_nil.
      * apply erased_beyond; auto; lia.
Qed.

Lemma spare_slots_zero_until_erase_witness :
  exists v' evs,
    cvec_erase (Vec four_of_six) 1 = Some (Vec v', evs) /\
    (forall i, size v' < i < capacity v' -> zero_slot v' i) /\
    (1 < size four_of_six - 1 \/ destructor four_of_six = None ->
     element v' (size v') = element four_of_six (size four_of_six - 1)).
Proof.
  apply (proj2 (proj2 spare_slots_zero_until_erase) four_of_six 1).
  - constructor; vm_compute; easy.
  - cbn; lia.
  - intros i Hi. cbn in Hi.
    assert (Hc : i = 4 \/ i = 5) by lia.
    destruct Hc as [-> | ->]; vm_compute; reflexivity.
Defined.

(** ** Growth and the stored bytes *)

(** C1 does not hold of the code.  The [memset] of the growth branch starts
    at byte offset [capacity] instead of [capacity * typesize].  Appending to
    the reachable full buffer [one_word] zeroes bytes 1 to 3 of element 0;
    appending to [two_words] zeroes bytes 2 to 7 and leaves the last slot
    added by the growth with the bytes the allocator handed out. *)
Theorem growth_overwrites_stored_bytes :
  reachable one_word /\
  (forall A,
      cvec_push_back A (Vec one_word) [x05; x06; x07; x08] =
      Some (Vec {| base := place A; size := 2; capacity := 2; typesize := 4;
                   destructor := None;
                   data := [x01; x00; x00; x00; x05; x06; x07; x08] |},
            [call_realloc 4096 40])) /\
  element one_word 0 = [x01; x02; x03; x04] /\
  (forall A,
      cvec_push_back A (Vec two_words) [x09; x0a; x0b; x0c] =
      Some (Vec {| base := place A; size := 3; capacity := 4; typesize := 4;
                   destructor := None;
                   data := [x01; x02; x00; x00; x00; x00; x00; x00;
                            x09; x0a; x0b; x0c;
                            uninit A 12; uninit A 13; uninit A 14;
                            uninit A 15] |},
            [call_realloc 4096 48])).
Proof.
  split; [| split; [| split]].
  - eapply (reachable_push_back (heap_at 4096) _ [x01; x02; x03; x04]);
      [eapply (reachable_reserve (heap_at 4096) 1 4 None) |].
    + vm_compute; intuition congruence.
    + vm_compute; intuition congruence.
    + vm_compute. reflexivity.
    + vm_compute. reflexivity.
  - intros A. vm_compute. reflexivity.
  - reflexivity.
  - intros A. vm_compute. reflexivity.
Qed.

(** * Further properties *)

(** ** Creation *)

(** X1.  [cvec_reserve], asked for a block whose byte size is representable,
    makes exactly one [malloc] call of [sizeof(record) + capacity * elem_sz]
    bytes and returns a non-null handle just past the record; the buffer is
    empty, has the capacity, element size and destructor it was given, and
    its storage is [capacity * elem_sz] zero bytes. *)
Theorem reserve_yields_empty_buffer (A : allocator) (cap es : Z)
    (d : option cvec_elem_destructor) :
  is_uint64 cap -> is_uint64 es ->
  sizeof_metadata + cap * es < uint64_modulus ->
  exists v,
    cvec_reserve A cap es d
      = Some (Vec v, [call_malloc (sizeof_metadata + cap * es)]) /\
    address (Vec v) = place A + sizeof_metadata /\
    cvec_get_sz (Vec v) = 0 /\
    cvec_get_capacity (Vec v) = cap /\
    cvec_get_type_sz (Vec v) = es /\
    cvec_empty (Vec v) = 1 /\
    destructor v = d /\
    data v = repeat zero_byte (Z.to_nat (cap * es)).
Proof.
  intros [Hc0 Hc1] [He0 He1] Hfit. eexists.
  split; [now apply cvec_reserve_defined |].
  cbn. repeat split.
Qed.

Lemma reserve_yields_empty_buffer_witness :
  exists v,
    cvec_reserve (heap_at 4096) 6 2 (Some scrub)
      = Some (Vec v, [call_malloc (sizeof_metadata + 6 * 2)]) /\
    address (Vec v) = 4096 + sizeof_metadata /\
    cvec_get_sz (Vec v) = 0 /\
    cvec_get_capacity (Vec v) = 6 /\
    cvec_get_type_sz (Vec v) = 2 /\
    cvec_empty (Vec v) = 1 /\
    destructor v = Some scrub /\
    data v = repeat zero_byte (Z.to_nat (6 * 2)).
Proof.
  apply (reserve_yields_empty_buffer (heap_at 4096) 6 2 (Some scrub)).
  - vm_compute; intuition congruence.
  - vm_compute; intuition congruence.
  - vm_compute; reflexivity.
Defined.

(** X2.  [cvec_create] returns an empty buffer of capacity 1, and the first
    [cvec_push_back] on it needs no reallocation: the run makes the one
    [malloc] call only, the handle keeps its address, and the buffer then
    holds the appended element, is no longer empty and is full. *)
Theorem create_then_push_back (A A' : allocator) (es : Z)
    (d : option cvec_elem_destructor) (e : list byte) :
  is_uint64 es -> sizeof_metadata + es < uint64_modulus ->
  es <= Z.of_nat (length e) ->
  exists v0 v1,
    cvec_create A es d = Some (Vec v0, [call_malloc (sizeof_metadata + es)]) /\
    cvec_get_sz (Vec v0) = 0 /\
    cvec_get_capacity (Vec v0) = 1 /\
    cvec_empty (Vec v0) = 1 /\
    cvec_push_back A' (Vec v0) e = Some (Vec v1, []) /\
    address (Vec v1) = address (Vec v0) /\
    cvec_get_sz (Vec v1) = 1 /\
    cvec_get_capacity (Vec v1) = 1 /\
    cvec_empty (Vec v1) = 0 /\
    element v1 0 = firstn (Z.to_nat es) e.
Proof.
  intros [He0 He1] Hfit He.
  assert (H32 : sizeof_metadata = 32) by reflexivity.
  set (v0 := {| base := place A; size := 0; capacity := 1; typesize := es;
                destructor := d;
                data := repeat zero_byte (Z.to_nat es) |}).
  assert (Hwf : wf v0).
  { constructor; cbn [size capacity typesize data v0];
      rewrite ?repeat_length; lia. }
  exists v0. eexists.
  split.
  { unfold cvec_create. rewrite cvec_reserve_defined by lia.
    now rewrite Z.mul_1_l. }
  do 3 (split; [reflexivity |]).
  split.
  { apply push_back_in_place; [assumption | cbn; lia | assumption]. }
  cbn [address base cvec_get_sz cvec_get_capacity cvec_empty size capacity].
  do 4 (split; [reflexivity |]).
  unfold element. cbn [data typesize size v0].
  rewrite !Z.mul_0_l. apply appended_last; rewrite ?repeat_length; lia.
Qed.

Lemma create_then_push_back_witness :
  exists v0 v1,
    cvec_create (heap_at 4096) 2 None
      = Some (Vec v0, [call_malloc (sizeof_metadata + 2)]) /\
    cvec_get_sz (Vec v0) = 0 /\
    cvec_get_capacity (Vec v0) = 1 /\
    cvec_empty (Vec v0) = 1 /\
    cvec_push_back (heap_at 8192) (Vec v0) [x10; x11] = Some (Vec v1, []) /\
    address (Vec v1) = address (Vec v0) /\
    cvec_get_sz (Vec v1) = 1 /\
    cvec_get_capacity (Vec v1) = 1 /\
    cvec_empty (Vec v1) = 0 /\
    element v1 0 = firstn (Z.to_nat 2) [x10; x11].
Proof.
  apply (create_then_push_back (heap_at 4096) (heap_at 8192) 2 None [x10; x11]).
  - vm_compute; intuition congruence.
  - vm_compute; reflexivity.
  - vm_compute; congruence.
Defined.

(** X3.  A buffer reserved with capacity 0 has no storage, and the first
    [cvec_push_back] on it grows it: one [realloc] of the record plus one
    element, capacity 1, and the appended element at index 0. *)
Theorem reserve_zero_then_push_back (A A' : allocator) (es : Z)
    (d : option cvec_elem_destructor) (e : list byte) :
  is_uint64 es -> sizeof_metadata + es < uint64_modulus ->
  es <= Z.of_nat (length e) ->
  exists v0 v1,
    cvec_reserve A 0 es d = Some (Vec v0, [call_malloc sizeof_metadata]) /\
    cvec_get_capacity (Vec v0) = 0 /\
    data v0 = [] /\
    cvec_push_back A' (Vec v0) e
      = Some (Vec v1, [call_realloc (place A) (sizeof_metadata + es)]) /\
    address (Vec v1) = place A' + sizeof_metadata /\
    cvec_get_sz (Vec v1) = 1 /\
    cvec_get_capacity (Vec v1) = 1 /\
    element v1 0 = firstn (Z.to_nat es) e.
Proof.
  intros [He0 He1] Hfit He.
  assert (H32 : sizeof_metadata = 32) by reflexivity.
  set (v0 := {| base := place A; size := 0; capacity := 0; typesize := es;
                destructor := d; data := [] |}).
  assert (Hwf : wf v0).
  { constructor; cbn [size capacity typesize data length v0];
      unfold uint64_modulus in *; lia. }
  assert (Hfits : fits v0).
  { split; unfold doubling_fits, block_fits; cbn [capacity typesize v0];
      unfold grown_capacity; cbn [Z.eqb]; unfold uint64_modulus in *; lia. }
  pose proof (length_grown_data A' v0 Hwf) as Hlen.
  cbn [capacity typesize v0] in Hlen. unfold grown_capacity in Hlen.
  cbn [Z.eqb] in Hlen.
  exists v0. eexists.
  split.
  { rewrite cvec_reserve_defined by (unfold uint64_modulus in *; lia).
    rewrite Z.mul_0_l, Z.add_0_r. reflexivity. }
  do 2 (split; [reflexivity |]).
  split.
  { rewrite push_back_grows; [| assumption | reflexivity | assumption | assumption].
    cbn [capacity typesize base v0]. unfold grown_capacity. cbn [Z.eqb].
    rewrite Z.mul_1_l. reflexivity. }
  cbn [address base cvec_get_sz cvec_get_capacity size capacity v0].
  do 3 (split; [reflexivity |]).
  unfold element. cbn [data typesize size v0].
  rewrite !Z.mul_0_l. apply appended_last; lia.
Qed.

Lemma reserve_zero_then_push_back_witness :
  exists v0 v1,
    cvec_reserve (heap_at 4096) 0 2 None
      = Some (Vec v0, [call_malloc sizeof_metadata]) /\
    cvec_get_capacity (Vec v0) = 0 /\
    data v0 = [] /\
    cvec_push_back (heap_at 8192) (Vec v0) [x10; x11]
      = Some (Vec v1, [call_realloc 4096 (sizeof_metadata + 2)]) /\
    address (Vec v1) = 8192 + sizeof_metadata /\
    cvec_get_sz (Vec v1) = 1 /\
    cvec_get_capacity (Vec v1) = 1 /\
    element v1 0 = firstn (Z.to_nat 2) [x10; x11].
Proof.
  apply (reserve_zero_then_push_back (heap_at 4096) (heap_at 8192) 2 None
           [x10; x11]).
  - vm_compute; intuition congruence.
  - vm_compute; reflexivity.
  - vm_compute; congruence.
Defined.

(** [cvec_reserve] on any arguments: undefined when the wrapped request is
    shorter than the record, else a zeroed block of the wrapped size. *)
Lemma cvec_reserve_wrapped (A : allocator) (cap es : Z)
    (d : option cvec_elem_destructor) :
  cvec_reserve A cap es d =
  let n := wrap64 (sizeof_metadata + wrap64 (cap * es)) in
  if n <? sizeof_metadata then None
  else Some (Vec {| base := place A; size := 0; capacity := cap;
                    typesize := es; destructor := d;
                    data := repeat zero_byte (Z.to_nat (n - sizeof_metadata)) |},
             [call_malloc n]).
Proof.
  unfold cvec_reserve. cbv zeta.
  set (n := wrap64 (sizeof_metadata + wrap64 (cap * es))).
  assert (Hn : 0 <= n) by apply wrap64_range.
  cbv [malloc emit bind ret lift].
  rewrite memset_whole by (rewrite ?length_fresh_block; lia).
  unfold load. cbn [Z.to_nat skipn].
  rewrite uint_of_zero_bytes, skipn_repeat.
  destruct (n <? sizeof_metadata) eqn:E; [reflexivity |].
  apply Z.ltb_ge in E. cbn [app]. do 5 f_equal.
  unfold sizeof_metadata in *. lia.
Qed.

(** X4.  [cvec_reserve] does not check its size computation.  When
    [sizeof(record) + capacity * elem_sz] does not fit 64 bits, the call is
    either undefined (the wrapped request does not even hold the record) or
    returns an empty buffer that records the capacity asked for over a
    storage shorter than [capacity * elem_sz] bytes; when that storage is
    shorter than one element, every [cvec_push_back] on the buffer writes
    outside the block. *)
Theorem reserve_overflow_short_storage (A : allocator) (cap es : Z)
    (d : option cvec_elem_destructor) :
  is_uint64 cap -> is_uint64 es ->
  uint64_modulus <= sizeof_metadata + cap * es ->
  cvec_reserve A cap es d = None \/
  exists v evs,
    cvec_reserve A cap es d = Some (Vec v, evs) /\
    cvec_get_sz (Vec v) = 0 /\
    cvec_get_capacity (Vec v) = cap /\
    cvec_get_type_sz (Vec v) = es /\
    Z.of_nat (length (data v)) < cap * es /\
    (Z.of_nat (length (data v)) < es ->
     forall A' e, cvec_push_back A' (Vec v) e = None).
Proof.
  intros [Hc0 Hc1] [He0 He1] Hover.
  assert (H32 : sizeof_metadata = 32) by reflexivity.
  rewrite cvec_reserve_wrapped. cbv zeta.
  set (n := wrap64 (sizeof_metadata + wrap64 (cap * es))).
  destruct (n <? sizeof_metadata) eqn:E; [now left |].
  apply Z.ltb_ge in E. right. do 2 eexists. split; [reflexivity |].
  cbn [cvec_get_sz cvec_get_capacity cvec_get_type_sz size capacity typesize data].
  do 3 (split; [reflexivity |]).
  rewrite repeat_length.
  assert (Hmul : 0 <= cap * es) by nia.
  pose proof (wrap64_range (cap * es)) as Hw.
  pose proof (wrap64_le (cap * es) Hmul) as Hwle.
  pose proof (wrap64_range (sizeof_metadata + wrap64 (cap * es))) as Hn.
  fold n in Hn.
  assert (Hlen : n - sizeof_metadata < cap * es).
  { destruct (Z_lt_ge_dec (cap * es) uint64_modulus) as [Hsmall | Hbig]; [| lia].
    rewrite (wrap64_small (cap * es)) in * by lia. lia. }
  split; [lia |].
  intros Hshort A' e.
  assert (Hes : es <> 0) by nia.
  assert (Hcap : cap <> 0) by nia.
  unfold cvec_push_back. cbn [size capacity typesize data].
  replace (cap =? 0) with false by (symmetry; now apply Z.eqb_neq).
  cbv [bind ret lift]. rewrite Z.mul_0_l. change (wrap64 0) with 0.
  unfold memcpy.
  replace (es =? 0) with false by (symmetry; now apply Z.eqb_neq).
  replace (in_range _ 0 es) with false; [reflexivity |].
  symmetry. unfold in_range. rewrite !andb_false_iff. right.
  apply Z.leb_gt. cbn [data]. rewrite repeat_length. lia.
Qed.

Lemma reserve_overflow_short_storage_witness :
  cvec_reserve (heap_at 4096) (2 ^ 63) 2 None
    = Some (Vec {| base := 4096; size := 0; capacity := 2 ^ 63; typesize := 2;
                   destructor := None; data := [] |},
            [call_malloc 32]) /\
  cvec_push_back (heap_at 4096)
    (Vec {| base := 4096; size := 0; capacity := 2 ^ 63; typesize := 2;
            destructor := None; data := [] |}) [x10; x11] = None.
Proof.
  destruct (reserve_overflow_short_storage (heap_at 4096) (2 ^ 63) 2 None)
    as [Hnone | (v & evs & Hres & _ & _ & _ & _ & Hpush)].
  - vm_compute; intuition congruence.
  - vm_compute; intuition congruence.
  - vm_compute; congruence.
  - vm_compute in Hnone. discriminate Hnone.
  - assert (Hv : Some (Vec v, evs)
                 = Some (Vec {| base := 4096; size := 0; capacity := 2 ^ 63;
                                typesize := 2; destructor := None;
                                data := [] |}, [call_malloc 32])).
    { rewrite <- Hres. vm_compute. reflexivity. }
    injection Hv as -> ->. split; [vm_compute; reflexivity |].
    apply Hpush. vm_compute. reflexivity.
Defined.

(** ** Round trips *)

(** X5.  Appending to a buffer with room and then erasing the appended index
    is a round trip: the second call runs the destructor, when one is set,
    once and on the appended bytes; size, capacity, element size and handle
    address are as before, and so is every element stored before. *)
Theorem push_back_then_erase_restores (A : allocator) (v : cvec)
    (e : list byte) :
  wf v -> size v < capacity v -> typesize v <= Z.of_nat (length e) ->
  exists v1 v2,
    cvec_push_back A (Vec v) e = Some (Vec v1, []) /\
    cvec_erase (Vec v1) (size v) =
      Some (Vec v2,
            match destructor v with
            | Some _ =>
                [call_destructor (address (Vec v) + size v * typesize v)
                   (firstn (Z.to_nat (typesize v)) e)]
            | None => []
            end) /\
    address (Vec v2) = address (Vec v) /\
    size v2 = size v /\
    capacity v2 = capacity v /\
    typesize v2 = typesize v /\
    forall i, 0 <= i < size v -> element v2 i = element v i.
Proof.
  intros Hwf Hroom He. pose proof Hwf as [Hsz Hes Hcap Hdata Hblk].
  destruct (push_back_defined A v e Hwf) as (v1 & evs & H1 & Hwf1 & Hs1 & Ht1 & _ & Hel);
    [lia | assumption |].
  pose proof H1 as H1'.
  rewrite push_back_in_place in H1' by assumption.
  injection H1' as Hv1 Hevs. subst evs.
  assert (Hb1 : bounded v1) by now apply wf_bounded.
  assert (Hi : 0 <= size v < size v1) by lia.
  exists v1. eexists. split; [exact H1 |].
  split.
  { rewrite (cvec_erase_defined v1 (size v) Hb1 Hi).
    unfold erase_events. rewrite Hel, Ht1. subst v1.
    cbn [destructor address base]. reflexivity. }
  cbn [address base size capacity typesize].
  subst v1. cbn [base size capacity typesize].
  repeat split; try lia.
  intros i Hi'. unfold element at 1. cbn [data typesize].
  set (v1 := {| base := base v; size := size v + 1; capacity := capacity v;
                typesize := typesize v; destructor := destructor v;
                data := store (data v) (size v * typesize v)
                          (firstn (Z.to_nat (typesize v)) e) |}) in *.
  change (typesize v) with (typesize v1) at 1 2.
  rewrite (erased_below v1 (size v) i Hb1 Hi Hi').
  unfold element. cbn [data typesize v1].
  apply appended_other; auto; lia.
Qed.

Lemma push_back_then_erase_restores_witness :
  exists v1 v2,
    cvec_push_back (heap_at 8192) (Vec four_of_six) [x50; x51]
      = Some (Vec v1, []) /\
    cvec_erase (Vec v1) (size four_of_six) =
      Some (Vec v2, [call_destructor (4128 + 4 * 2) [x50; x51]]) /\
    address (Vec v2) = address (Vec four_of_six) /\
    size v2 = size four_of_six /\
    capacity v2 = capacity four_of_six /\
    typesize v2 = typesize four_of_six /\
    forall i, 0 <= i < size four_of_six -> element v2 i = element four_of_six i.
Proof.
  apply (push_back_then_erase_restores (heap_at 8192) four_of_six [x50; x51]).
  - constructor; vm_compute; easy.
  - vm_compute; reflexivity.
  - vm_compute; congruence.
Defined.

(** ** Erase and teardown together *)

Lemma in_indices (n i : Z) : In i (indices n) -> 0 <= i < n.
Proof.
  unfold indices. rewrite in_map_iff. intros (k & <- & Hk).
  apply in_seq in Hk. lia.
Qed.

(** X6.  With a destructor set, erasing a valid index and then tearing the
    buffer down runs the destructor on every element the buffer held exactly
    once: on the erased one at the erase, and on each of the others, in
    their original order, at the teardown, which then releases the block. *)
Theorem erase_then_free_destroys_each_once (v : cvec) (index : Z)
    (d : cvec_elem_destructor) :
  bounded v -> 0 <= index < size v -> destructor v = Some d ->
  exists v',
    cvec_erase (Vec v) index =
      Some (Vec v',
            [call_destructor (address (Vec v) + index * typesize v)
               (element v index)]) /\
    cvec_free (Vec v') =
      Some (tt,
            map (fun j => call_destructor (address (Vec v) + j * typesize v)
                            (element v (if j <? index then j else j + 1)))
                (indices (size v - 1))
            ++ [call_free (base v)]).
Proof.
  intros Hb Hi Hd.
  pose proof (cvec_erase_defined v index Hb Hi) as He.
  set (v' := {| base := base v; size := size v - 1; capacity := capacity v;
                typesize := typesize v; destructor := destructor v;
                data := erased_data v index |}) in *.
  assert (Hb' : bounded v').
  { apply (bounded_erase v index v' (erase_events v index)); auto; lia. }
  exists v'. split.
  - rewrite He. unfold erase_events. now rewrite Hd.
  - rewrite (cvec_free_defined v' Hb'). unfold destroy_events.
    cbn [destructor size typesize base address v']. rewrite Hd.
    do 3 f_equal. apply map_ext_in. intros j Hj. apply in_indices in Hj.
    f_equal. unfold element at 1. cbn [data typesize v'].
    destruct (j <? index) eqn:E.
    + apply Z.ltb_lt in E. apply erased_below; auto; lia.
    + apply Z.ltb_ge in E. apply erased_above; auto; lia.
Qed.

Lemma erase_then_free_destroys_each_once_witness :
  exists v',
    cvec_erase (Vec four_of_six) 1 =
      Some (Vec v', [call_destructor (4128 + 1 * 2) [x20; x21]]) /\
    cvec_free (Vec v') =
      Some (tt, [call_destructor 4128 [x10; x11];
                 call_destructor 4130 [x30; x31];
                 call_destructor 4132 [x40; x41];
                 call_free 4096]).
Proof.
  apply (erase_then_free_destroys_each_once four_of_six 1 scrub).
  - constructor; vm_compute; intuition congruence.
  - vm_compute; intuition congruence.
  - reflexivity.
Defined.

(** ** Runs of erases *)

Lemma erase_front_run (n : nat) :
  forall v,
    bounded v -> Z.of_nat n <= size v ->
    exists v',
      erase_front (Vec v) n =
        Some (Vec v',
              match destructor v with
              | Some _ =>
                  map (fun k => call_destructor (address (Vec v))
                                  (element v (Z.of_nat k)))
                      (seq 0 n)
              | None => []
              end) /\
      base v' = base v /\
      size v' = size v - Z.of_nat n /\
      capacity v' = capacity v /\
      typesize v' = typesize v /\
      forall j, 0 <= j < size v - Z.of_nat n ->
                element v' j = element v (j + Z.of_nat n).
Proof.
  induction n as [| n IH]; intros v Hb Hn.
  - exists v. cbn [erase_front seq map]. repeat split; try lia.
    + destruct (destructor v); reflexivity.
    + intros j _. f_equal. lia.
  - assert (Hi : 0 <= 0 < size v) by lia.
    pose proof (cvec_erase_defined v 0 Hb Hi) as He.
    set (v1 := {| base := base v; size := size v - 1; capacity := capacity v;
                  typesize := typesize v; destructor := destructor v;
                  data := erased_data v 0 |}) in *.
    assert (Hb1 : bounded v1).
    { apply (bounded_erase v 0 v1 (erase_events v 0)); auto; lia. }
    destruct (IH v1 Hb1) as (v' & Hrun & Hbase & Hs & Hc & Ht & Hel).
    { cbn [size v1]. lia. }
    cbn [base size capacity typesize destructor address v1] in *.
    assert (Hshift : forall k, 0 <= k < size v - 1 ->
                               element v1 k = element v (k + 1)).
    { intros k Hk. unfold element at 1. cbn [data typesize v1].
      apply erased_above; auto; lia. }
    exists v'. split.
    + cbn [erase_front]. rewrite He. cbv [bind]. rewrite Hrun.
      unfold erase_events. destruct (destructor v) as [d |]; [| reflexivity].
      cbn [app seq map address]. rewrite Z.mul_0_l, Z.add_0_r.
      do 3 f_equal. rewrite <- seq_shift, map_map.
      apply map_ext_in. intros k Hk. apply in_seq in Hk. f_equal.
      rewrite Hshift by lia. f_equal. lia.
    + repeat split; try lia.
      intros j Hj. rewrite Hel by lia. rewrite Hshift by lia. f_equal. lia.
Qed.

(** X7.  Erasing index 0 [n] times, [n <= size], drains the buffer from the
    front: with a destructor set it is run on the elements formerly at
    indices [0, 1, ..., n-1], in that order and each time at the address of
    slot 0; the elements formerly at [n, n+1, ...] end up at [0, 1, ...];
    size drops by [n], capacity and handle address stay.  With [n = size]
    the buffer ends up empty. *)
Theorem erase_front_drains (v : cvec) (n : Z) :
  bounded v -> 0 <= n <= size v ->
  exists v',
    erase_front (Vec v) (Z.to_nat n) =
      Some (Vec v',
            match destructor v with
            | Some _ =>
                map (fun k => call_destructor (address (Vec v)) (element v k))
                    (indices n)
            | None => []
            end) /\
    address (Vec v') = address (Vec v) /\
    size v' = size v - n /\
    capacity v' = capacity v /\
    (n = size v -> cvec_empty (Vec v') = 1) /\
    forall j, 0 <= j < size v - n -> element v' j = element v (j + n).
Proof.
  intros Hb Hn.
  destruct (erase_front_run (Z.to_nat n) v Hb) as (v' & Hrun & Hbase & Hs & Hc & _ & Hel);
    [lia |].
  rewrite Z2Nat.id in * by lia.
  exists v'. split.
  - rewrite Hrun. unfold indices. now rewrite map_map.
  - cbn [address]. rewrite Hbase. repeat split; try lia.
    + intros ->. unfold cvec_empty. cbn [cvec_get_sz]. rewrite Hs, Z.sub_diag.
      reflexivity.
    + exact Hel.
Qed.

Lemma erase_front_drains_witness :
  exists v',
    erase_front (Vec four_of_six) (Z.to_nat 3) =
      Some (Vec v', [call_destructor 4128 [x10; x11];
                     call_destructor 4128 [x20; x21];
                     call_destructor 4128 [x30; x31]]) /\
    address (Vec v') = address (Vec four_of_six) /\
    size v' = size four_of_six - 3 /\
    capacity v' = capacity four_of_six /\
    (3 = size four_of_six -> cvec_empty (Vec v') = 1) /\
    forall j, 0 <= j < size four_of_six - 3 ->
              element v' j = element four_of_six (j + 3).
Proof.
  apply (erase_front_drains four_of_six 3).
  - constructor; vm_compute; intuition congruence.
  - vm_compute; intuition congruence.
Defined.

(** ** Filling a reserved buffer *)

Lemma fill_in_place (calls : list (allocator * list byte)) :
  forall v,
    wf v -> size v + Z.of_nat (length calls) <= capacity v ->
    Forall (fun c => typesize v <= Z.of_nat (length (snd c))) calls ->
    exists v',
      push_back_all (Vec v) calls = Some (Vec v', []) /\
      base v' = base v /\
      size v' = size v + Z.of_nat (length calls) /\
      capacity v' = capacity v /\
      typesize v' = typesize v /\
      (forall i, 0 <= i < size v -> element v' i = element v i) /\
      (forall k, (k < length calls)%nat ->
                 element v' (size v + Z.of_nat k)
                 = copied (typesize v) calls k).
Proof.
  induction calls as [| [A e] rest IH]; intros v Hwf Hroom Hall.
  - exists v. cbn [push_back_all length] in *. repeat split; lia.
  - cbn [length] in *. pose proof Hwf as [Hsz Hes Hcap Hdata Hblk].
    inversion Hall as [| c l He Hrest]; subst. cbn [snd] in He.
    destruct (push_back_defined A v e Hwf)
      as (v1 & ev1 & H1 & Hwf1 & Hs1 & Ht1 & Hc1 & Hel1); [lia | assumption |].
    pose proof H1 as H1'.
    rewrite push_back_in_place in H1' by (auto; lia).
    injection H1' as Hv1 Hev1. subst ev1.
    replace (size v =? capacity v) with false in Hc1
      by (symmetry; apply Z.eqb_neq; lia).
    assert (Hold : forall i, 0 <= i < size v -> element v1 i = element v i).
    { intros i Hi. rewrite <- Hv1. unfold element at 1. cbn [data typesize].
      apply appended_other; auto; lia. }
    assert (Hbase1 : base v1 = base v) by (now rewrite <- Hv1).
    destruct (IH v1 Hwf1) as (v' & Hrun & Hbase & Hs & Hc & Ht & Helo & Heln).
    { lia. }
    { now rewrite Ht1. }
    exists v'. split.
    { cbn [push_back_all]. rewrite H1. cbv [bind]. now rewrite Hrun. }
    repeat split; try congruence; try lia.
    + intros i Hi. rewrite Helo by lia. now apply Hold.
    + intros [| k] Hk.
      * rewrite Z.add_0_r, Helo by lia. exact Hel1.
      * replace (size v + Z.of_nat (S k)) with (size v1 + Z.of_nat k) by lia.
        rewrite Heln by lia. rewrite Ht1. reflexivity.
Qed.

(** X8.  After [cvec_reserve] with capacity [c], up to [c] appends never
    reallocate: the whole run makes the one [malloc] call, the handle keeps
    the address [cvec_reserve] returned, the capacity stays [c], and the
    elements read back in the order they were appended. *)
Theorem reserve_then_fill (A : allocator) (cap es : Z)
    (d : option cvec_elem_destructor)
    (calls : list (allocator * list byte)) :
  is_uint64 cap -> is_uint64 es ->
  sizeof_metadata + cap * es < uint64_modulus ->
  Z.of_nat (length calls) <= cap ->
  Forall (fun c => es <= Z.of_nat (length (snd c))) calls ->
  exists v,
    (h <- cvec_reserve A cap es d ;; push_back_all h calls)
      = Some (Vec v, [call_malloc (sizeof_metadata + cap * es)]) /\
    address (Vec v) = place A + sizeof_metadata /\
    size v = Z.of_nat (length calls) /\
    capacity v = cap /\
    forall k, (k < length calls)%nat ->
              element v (Z.of_nat k) = copied es calls k.
Proof.
  intros [Hc0 Hc1] [He0 He1] Hfit Hlen Hall.
  rewrite cvec_reserve_defined by lia. cbv [bind].
  set (v0 := {| base := place A; size := 0; capacity := cap; typesize := es;
                destructor := d;
                data := repeat zero_byte (Z.to_nat (cap * es)) |}).
  assert (Hwf : wf v0).
  { constructor; cbn [size capacity typesize data v0];
      rewrite ?repeat_length; try lia; nia. }
  destruct (fill_in_place calls v0 Hwf) as (v & Hrun & Hbase & Hs & Hc & _ & _ & Hel).
  { cbn [size capacity v0]. lia. }
  { exact Hall. }
  cbn [base size capacity typesize v0] in *.
  exists v. rewrite Hrun. cbn [app address]. rewrite Hbase.
  repeat split; try lia. intros k Hk. rewrite <- Hel by assumption.
  f_equal.
Qed.

Lemma reserve_then_fill_witness :
  exists v,
    (h <- cvec_reserve (heap_at 4096) 2 2 None ;;
     push_back_all h [(heap_at 8192, [x10; x11]); (heap_at 12288, [x20; x21])])
      = Some (Vec v, [call_malloc (sizeof_metadata + 2 * 2)]) /\
    address (Vec v) = 4096 + sizeof_metadata /\
    size v = 2 /\
    capacity v = 2 /\
    forall k, (k < 2)%nat ->
              element v (Z.of_nat k)
              = copied 2 [(heap_at 8192, [x10; x11]);
                          (heap_at 12288, [x20; x21])] k.
Proof.
  apply (reserve_then_fill (heap_at 4096) 2 2 None
           [(heap_at 8192, [x10; x11]); (heap_at 12288, [x20; x21])]).
  - vm_compute; intuition congruence.
  - vm_compute; intuition congruence.
  - vm_compute; reflexivity.
  - vm_compute; congruence.
  - repeat constructor; vm_compute; congruence.
Defined.

(** ** Growth, byte by byte *)

(** X9.  With one-byte elements the growth branch is exact: a full buffer
    whose grown block is representable is reallocated to the doubled
    capacity (1 from 0), every element stored before is unchanged, the new
    element follows them, and every slot beyond it is zero. *)
Theorem one_byte_growth_preserves (A : allocator) (v : cvec) (e : list byte) :
  wf v -> size v = capacity v -> fits v -> typesize v = 1 ->
  1 <= Z.of_nat (length e) ->
  exists v',
    cvec_push_back A (Vec v) e =
      Some (Vec v',
            [call_realloc (base v)
               (sizeof_metadata + grown_capacity (capacity v))]) /\
    size v' = size v + 1 /\
    capacity v' = grown_capacity (capacity v) /\
    typesize v' = 1 /\
    (forall i, 0 <= i < size v -> element v' i = element v i) /\
    element v' (size v) = firstn 1 e /\
    (forall i, size v < i < capacity v' -> element v' i = [zero_byte]).
Proof.
  intros Hwf Hfull Hfits Hone He. pose proof Hwf as [Hsz Hes Hcap Hdata Hblk].
  pose proof Hfits as [Hfc Hfb]. unfold doubling_fits, block_fits in *.
  pose proof (grown_capacity_gt (capacity v)) as Hgt.
  pose proof (length_grown_data A v Hwf) as Hlen.
  rewrite Hone in *. rewrite Z.mul_1_r in *.
  eexists. split.
  { rewrite push_back_grows by (rewrite ?Hone; auto; lia).
    rewrite Hone, !Z.mul_1_r. reflexivity. }
  cbn [size capacity typesize]. do 3 (split; [reflexivity |]).
  assert (Hresize : Z.of_nat (length (resize A (data v) (grown_capacity (capacity v))))
                    = grown_capacity (capacity v)).
  { rewrite length_resize. lia. }
  assert (Hgrown : grown_data A v =
                   store (resize A (data v) (grown_capacity (capacity v)))
                     (capacity v)
                     (repeat zero_byte
                        (Z.to_nat (grown_capacity (capacity v) - capacity v)))).
  { unfold grown_data. now rewrite Hone, !Z.mul_1_r. }
  split; [| split].
  - intros i Hi. unfold element. cbn [data typesize]. rewrite ?Hone, ?Z.mul_1_r.
    rewrite load_store_other by (rewrite ?length_firstn; lia).
    rewrite Hgrown.
    rewrite load_store_other by (rewrite ?repeat_length; lia).
    apply load_ext. intros k Hk. apply nth_error_resize; lia.
  - unfold element. cbn [data typesize]. rewrite ?Hone, ?Z.mul_1_r.
    apply appended_last; lia.
  - intros i Hi. unfold element. cbn [data typesize]. rewrite ?Hone, ?Z.mul_1_r.
    rewrite load_store_other by (rewrite ?length_firstn; lia).
    rewrite Hgrown.
    replace i with (capacity v + (i - capacity v)) at 1 by lia.
    rewrite load_store_inside by (rewrite ?repeat_length; lia).
    apply load_repeat; lia.
Qed.

Lemma one_byte_growth_preserves_witness :
  exists v',
    cvec_push_back (heap_at 8192) (Vec three_of_three) [x40] =
      Some (Vec v',
            [call_realloc (base three_of_three)
               (sizeof_metadata + grown_capacity (capacity three_of_three))]) /\
    size v' = size three_of_three + 1 /\
    capacity v' = grown_capacity (capacity three_of_three) /\
    typesize v' = 1 /\
    (forall i, 0 <= i < size three_of_three ->
               element v' i = element three_of_three i) /\
    element v' (size three_of_three) = firstn 1 [x40] /\
    (forall i, size three_of_three < i < capacity v' ->
               element v' i = [zero_byte]).
Proof.
  apply (one_byte_growth_preserves (heap_at 8192) three_of_three [x40]).
  - constructor; vm_compute; easy.
  - reflexivity.
  - split; vm_compute; reflexivity.
  - reflexivity.
  - vm_compute; congruence.
Defined.

(** X10.  With elements of two bytes or more, the growth of a full buffer of
    two slots or more wipes stored data: the [memset] that starts at byte
    offset [capacity] covers the whole of the last element stored before,
    which reads as zero bytes after the append. *)
Theorem growth_zeroes_last_element (A : allocator) (v : cvec)
    (e : list byte) :
  wf v -> size v = capacity v -> fits v ->
  2 <= capacity v -> 2 <= typesize v ->
  typesize v <= Z.of_nat (length e) ->
  exists v' evs,
    cvec_push_back A (Vec v) e = Some (Vec v', evs) /\
    size v' = size v + 1 /\
    element v' (size v - 1) = repeat zero_byte (Z.to_nat (typesize v)).
Proof.
  intros Hwf Hfull Hfits Hcap2 Hes2 He.
  pose proof Hwf as [Hsz Hes Hcap Hdata Hblk].
  pose proof Hfits as [Hfc Hfb]. unfold doubling_fits, block_fits in *.
  pose proof (length_grown_data A v Hwf) as Hlen.
  assert (Hg : grown_capacity (capacity v) = capacity v * 2).
  { unfold grown_capacity.
    replace (capacity v =? 0) with false by (symmetry; apply Z.eqb_neq; lia).
    reflexivity. }
  rewrite Hg in *.
  do 2 eexists. split; [now apply push_back_grows |].
  cbn [size]. split; [reflexivity |].
  unfold element. cbn [data typesize].
  rewrite load_store_other by (rewrite ?length_firstn; nia).
  unfold grown_data. rewrite Hg.
  replace ((capacity v * 2 - capacity v) * typesize v)
    with (capacity v * typesize v) by lia.
  replace ((size v - 1) * typesize v)
    with (capacity v + ((size v - 1) * typesize v - capacity v)) by lia.
  rewrite load_store_inside
    by (rewrite ?repeat_length, ?length_resize; nia).
  apply load_repeat; nia.
Qed.

Lemma growth_zeroes_last_element_witness :
  exists v' evs,
    cvec_push_back (heap_at 8192) (Vec two_words) [x09; x0a; x0b; x0c]
      = Some (Vec v', evs) /\
    size v' = size two_words + 1 /\
    element v' (size two_words - 1)
    = repeat zero_byte (Z.to_nat (typesize two_words)).
Proof.
  apply (growth_zeroes_last_element (heap_at 8192) two_words
           [x09; x0a; x0b; x0c]).
  - constructor; vm_compute; easy.
  - reflexivity.
  - split; vm_compute; reflexivity.
  - vm_compute; congruence.
  - vm_compute; congruence.
  - vm_compute; congruence.
Defined.

(** ** What the calls leave alone *)

(** X11.  A defined [cvec_push_back] never changes the element size or the
    destructor, and never calls the destructor, [malloc] or [free].  When the
    buffer is not full it makes no call at all and returns the address it
    was given, with the capacity unchanged; when it is full it makes exactly
    one [realloc] call, on the block it was given, and returns the address
    of the block [realloc] hands back. *)
Theorem push_back_frame (A : allocator) (v : cvec) (e : list byte)
    (v' : cvec) (evs : list event) :
  cvec_push_back A (Vec v) e = Some (Vec v', evs) ->
  typesize v' = typesize v /\
  destructor v' = destructor v /\
  (capacity v <> size v ->
   evs = [] /\ address (Vec v') = address (Vec v) /\
   capacity v' = capacity v) /\
  (capacity v = size v ->
   (exists request, evs = [call_realloc (base v) request]) /\
   address (Vec v') = place A + sizeof_metadata).
Proof.
  unfold cvec_push_back. destruct (capacity v =? size v) eqn:Efull.
  - apply Z.eqb_eq in Efull. unfold grow. cbv [realloc emit bind ret lift].
    destruct (_ <? sizeof_metadata); [discriminate |].
    destruct (memset _ _ _ _); [| discriminate].
    cbn [base size capacity typesize destructor data].
    destruct (memcpy _ _ _ _); [| discriminate].
    intros [= <- <-]. cbn [typesize destructor address base app].
    repeat split; try (intros; contradiction); eauto.
  - apply Z.eqb_neq in Efull. cbv [bind ret lift].
    destruct (memcpy _ _ _ _); [| discriminate].
    intros [= <- <-]. cbn [typesize destructor address base capacity app].
    repeat split; intros; contradiction.
Qed.

Lemma push_back_frame_witness :
  typesize three_of_four = typesize two_of_two /\
  destructor three_of_four = destructor two_of_two /\
  (capacity two_of_two <> size two_of_two ->
   [call_realloc 4096 36] = [] /\
   address (Vec three_of_four) = address (Vec two_of_two) /\
   capacity three_of_four = capacity two_of_two) /\
  (capacity two_of_two = size two_of_two ->
   (exists request, [call_realloc 4096 36]
                    = [call_realloc (base two_of_two) request]) /\
   address (Vec three_of_four) = place (heap_at 8192) + sizeof_metadata).
Proof.
  apply (push_back_frame (heap_at 8192) two_of_two [x30] three_of_four
           [call_realloc 4096 36]).
  vm_compute. reflexivity.
Defined.

(** X12.  A defined [cvec_erase] never relocates or resizes the block: the
    handle address, the capacity, the element size, the destructor and the
    length of the storage are unchanged, and the allocator is never called.
    The only call it can make is one destructor call, and none when no
    destructor is set. *)
Theorem erase_frame (v : cvec) (index : Z) (v' : cvec) (evs : list event) :
  cvec_erase (Vec v) index = Some (Vec v', evs) ->
  address (Vec v') = address (Vec v) /\
  capacity v' = capacity v /\
  typesize v' = typesize v /\
  destructor v' = destructor v /\
  length (data v') = length (data v) /\
  (evs = [] \/ exists elem bytes, evs = [call_destructor elem bytes]) /\
  (destructor v = None -> evs = []).
Proof.
  intros H. pose proof (cvec_erase_length _ _ _ _ H) as Hlen.
  revert H. unfold cvec_erase. destruct (index >=? size v).
  - intros [= <- <-]. repeat split; auto.
  - destruct (destructor v) as [d |] eqn:Ed.
    + unfold run_destructor. destruct (in_range _ _ _); [| discriminate].
      cbv [emit bind ret lift].
      destruct (memmove _ _ _ _); [| discriminate].
      intros [= <- <-]. cbn [address base capacity typesize destructor app].
      repeat split; auto; [right; eauto | discriminate].
    + cbv [bind ret lift]. destruct (memmove _ _ _ _); [| discriminate].
      intros [= <- <-]. cbn [address base capacity typesize destructor app].
      repeat split; auto.
Qed.

Lemma erase_frame_witness :
  address (Vec three_of_six) = address (Vec four_of_six) /\
  capacity three_of_six = capacity four_of_six /\
  typesize three_of_six = typesize four_of_six /\
  destructor three_of_six = destructor four_of_six /\
  length (data three_of_six) = length (data four_of_six) /\
  ([call_destructor 4130 [x20; x21]] = [] \/
   exists elem bytes,
     [call_destructor 4130 [x20; x21]] = [call_destructor elem bytes]) /\
  (destructor four_of_six = None -> [call_destructor 4130 [x20; x21]] = []).
Proof.
  apply (erase_frame four_of_six 1 three_of_six
           [call_destructor 4130 [x20; x21]]).
  vm_compute. reflexivity.
Defined.

(** ** Invariants *)

(** [cvec_erase] is defined wherever the live elements lie inside the
    storage, whatever the index. *)
Lemma cvec_erase_total (v : cvec) (index : Z) :
  bounded v -> 0 <= index ->
  exists v' evs, cvec_erase (Vec v) index = Some (Vec v', evs).
Proof.
  intros Hb Hi. destruct (Z_lt_ge_dec index (size v)) as [Hin | Hout].
  - do 2 eexists. apply cvec_erase_defined; auto.
  - exists v, []. unfold cvec_erase. rewrite Z.geb_leb.
    replace (size v <=? index) with true by (symmetry; apply Z.leb_le; lia).
    reflexivity.
Qed.

(** X13.  In every reachable buffer the live elements lie inside the
    allocated storage, the storage is no longer than the recorded capacity
    says, the block was of a size 64 bits can express, and the three counters
    are in range: no defined run of calls leaves a live element outside the
    block. *)
Theorem live_elements_inside_block (v : cvec) :
  reachable v ->
  size v * typesize v <= Z.of_nat (length (data v)) /\
  Z.of_nat (length (data v)) <= capacity v * typesize v /\
  sizeof_metadata + Z.of_nat (length (data v)) < uint64_modulus /\
  is_uint64 (size v) /\ is_uint64 (capacity v) /\ is_uint64 (typesize v).
Proof.
  intros Hr. destruct (reachable_bounded v Hr) as [Hs Hc He Hlive Hdata Hblk].
  auto 10.
Qed.

Lemma live_elements_inside_block_witness :
  size grown_pair * typesize grown_pair
    <= Z.of_nat (length (data grown_pair)) /\
  Z.of_nat (length (data grown_pair))
    <= capacity grown_pair * typesize grown_pair /\
  sizeof_metadata + Z.of_nat (length (data grown_pair)) < uint64_modulus /\
  is_uint64 (size grown_pair) /\ is_uint64 (capacity grown_pair) /\
  is_uint64 (typesize grown_pair).
Proof.
  apply live_elements_inside_block. apply reachable_grown_pair.
Defined.

(** X14.  On every reachable buffer [cvec_erase], at any index, and
    [cvec_free] are defined: neither reads nor writes outside the block.
    The buffer [cvec_erase] leaves is reachable again. *)
Theorem erase_and_free_stay_inside (v : cvec) (index : Z) :
  reachable v -> is_uint64 index ->
  (exists v' evs,
      cvec_erase (Vec v) index = Some (Vec v', evs) /\ reachable v') /\
  (exists evs, cvec_free (Vec v) = Some (tt, evs)).
Proof.
  intros Hr Hi. pose proof (reachable_bounded v Hr) as Hb. split.
  - destruct (cvec_erase_total v index Hb) as (v' & evs & H); [apply Hi |].
    exists v', evs. split; [exact H |].
    now apply (reachable_erase v index v' evs).
  - eexists. now apply cvec_free_defined.
Qed.

Lemma erase_and_free_stay_inside_witness :
  (exists v' evs,
      cvec_erase (Vec grown_pair) 0 = Some (Vec v', evs) /\ reachable v') /\
  (exists evs, cvec_free (Vec grown_pair) = Some (tt, evs)).
Proof.
  apply erase_and_free_stay_inside.
  - apply reachable_grown_pair.
  - vm_compute; intuition congruence.
Defined.

(** X15.  Well-formedness is an invariant of the calls whose requests are
    representable: [cvec_reserve] returns a well-formed buffer when the byte
    size of the block fits 64 bits, [cvec_push_back] on a well-formed buffer
    is defined and returns a well-formed buffer when the grown buffer is
    representable, and [cvec_erase] on a well-formed buffer is defined at
    any index and returns a well-formed buffer. *)
Theorem wf_is_kept :
  (forall A cap es d,
      is_uint64 cap -> is_uint64 es ->
      sizeof_metadata + cap * es < uint64_modulus ->
      exists v evs, cvec_reserve A cap es d = Some (Vec v, evs) /\ wf v) /\
  (forall A v e,
      wf v -> (size v = capacity v -> fits v) ->
      typesize v <= Z.of_nat (length e) ->
      exists v' evs, cvec_push_back A (Vec v) e = Some (Vec v', evs) /\ wf v') /\
  (forall v index,
      wf v -> is_uint64 index ->
      exists v' evs, cvec_erase (Vec v) index = Some (Vec v', evs) /\ wf v').
Proof.
  split; [| split].
  - intros A cap es d. apply wf_reserve.
  - intros A v e Hwf Hfits He.
    destruct (push_back_defined A v e Hwf Hfits He) as (v' & evs & H & Hwf' & _).
    eauto.
  - intros v index Hwf [Hi _].
    destruct (cvec_erase_total v index (wf_bounded v Hwf) Hi) as (v' & evs & H).
    exists v', evs. split; [exact H |]. now apply (wf_erase v index v' evs).
Qed.

Lemma wf_is_kept_witness :
  exists v' evs,
    cvec_push_back (heap_at 8192) (Vec two_of_two) [x30] = Some (Vec v', evs) /\
    wf v'.
Proof.
  apply (proj1 (proj2 wf_is_kept) (heap_at 8192) two_of_two [x30]).
  - constructor; vm_compute; easy.
  - intros _. split; vm_compute; reflexivity.
  - vm_compute; congruence.
Defined.

(** ** Counting reallocations *)

Lemma growths_after_succ (n : Z) :
  0 <= n ->
  growths_after (n + 1) =
  growths_after n + (if n =? capacity_after n then 1 else 0).
Proof.
  intros Hn. unfold growths_after, capacity_after.
  replace (n + 1 =? 0) with false by (symmetry; apply Z.eqb_neq; lia).
  destruct (n =? 0) eqn:E0.
  - apply Z.eqb_eq in E0. subst n. reflexivity.
  - apply Z.eqb_neq in E0.
    pose proof (Z.log2_up_nonneg n) as Hk.
    destruct (n =? 2 ^ Z.log2_up n) eqn:Epow.
    + apply Z.eqb_eq in Epow. rewrite Epow at 1.
      change (2 ^ Z.log2_up n + 1) with (Z.succ (2 ^ Z.log2_up n)).
      rewrite Z.log2_up_succ_pow2 by assumption. lia.
    + apply Z.eqb_neq in Epow.
      assert (H1 : 1 < n).
      { destruct (Z.eq_dec n 1) as [-> | ]; [| lia].
        now contradiction Epow. }
      pose proof (Z.log2_up_spec n H1) as [Hlo Hhi].
      rewrite (Z.log2_up_unique (n + 1) (Z.log2_up n)); [lia | |].
      * apply Z.log2_up_pos. assumption.
      * lia.
Qed.

Lemma reallocs_app (l l' : list event) :
  reallocs (l ++ l') = reallocs l + reallocs l'.
Proof. unfold reallocs. rewrite filter_app, length_app. lia. Qed.

Lemma growths_run (calls : list (allocator * list byte)) :
  forall v,
    wf v -> capacity v = capacity_after (size v) ->
    Forall (fun c => typesize v <= Z.of_nat (length (snd c))) calls ->
    2 * (size v + Z.of_nat (length calls)) <= uint64_modulus ->
    sizeof_metadata + 2 * (size v + Z.of_nat (length calls)) * typesize v
      < uint64_modulus ->
    exists v' evs,
      push_back_all (Vec v) calls = Some (Vec v', evs) /\
      reallocs evs
      = growths_after (size v + Z.of_nat (length calls)) - growths_after (size v) /\
      Forall (fun ev => is_realloc ev = true) evs.
Proof.
  induction calls as [| [A e] rest IH]; intros v Hwf Hcap Hall Hn Hb.
  - exists v, []. cbn [length push_back_all] in *. rewrite Z.add_0_r.
    repeat split; [unfold reallocs; cbn; lia | constructor].
  - cbn [length] in *. pose proof Hwf as [Hsz Hes Hc Hdata Hblk].
    inversion Hall as [| c l He Hrest]; subst. cbn [snd] in He.
    assert (H32 : sizeof_metadata = 32) by reflexivity.
    assert (Hfits : size v = capacity v -> fits v).
    { intros Hfull. split; unfold doubling_fits, block_fits, grown_capacity;
        destruct (capacity v =? 0); nia. }
    destruct (push_back_defined A v e Hwf Hfits He)
      as (v1 & ev1 & H1 & Hwf1 & Hs1 & Ht1 & Hc1 & _).
    assert (Hev1 : reallocs ev1
                   = (if size v =? capacity_after (size v) then 1 else 0) /\
                   Forall (fun ev => is_realloc ev = true) ev1).
    { rewrite <- Hcap. pose proof H1 as H1'.
      destruct (size v =? capacity v) eqn:Efull.
      - apply Z.eqb_eq in Efull.
        rewrite push_back_grows in H1' by auto.
        injection H1' as _ <-. split; [reflexivity | repeat constructor].
      - apply Z.eqb_neq in Efull.
        rewrite push_back_in_place in H1' by (auto; lia).
        injection H1' as _ <-. split; [reflexivity | constructor]. }
    destruct Hev1 as [Hcount1 Hall1].
    destruct (IH v1 Hwf1) as (v' & evs & H & Hcount & Hallr).
    + rewrite Hc1, Hs1, capacity_after_succ, Hcap by lia.
      destruct (size v =? capacity_after (size v)) eqn:E; [| reflexivity].
      apply Z.eqb_eq in E. f_equal. congruence.
    + now rewrite Ht1.
    + lia.
    + rewrite Ht1. nia.
    + exists v', (ev1 ++ evs). cbn [push_back_all]. rewrite H1.
      cbv [bind]. rewrite H. split; [reflexivity |]. split.
      * rewrite reallocs_app, Hcount, Hcount1, Hs1.
        rewrite (growths_after_succ (size v)) by lia.
        replace (size v + 1 + Z.of_nat (length rest))
          with (size v + Z.of_nat (S (length rest))) by lia.
        destruct (size v =? capacity_after (size v)); lia.
      * apply Forall_app. now split.
Qed.

(** X16.  Growth is logarithmic.  Starting from [cvec_reserve] with capacity
    0, a run of [n >= 1] appends whose sizes are representable calls
    [realloc] exactly [ceil(log2 n) + 1] times (1, 2, 3, 3, 4, 4, 4, 4, 5
    for [n] = 1 to 9) and, after the one [malloc] of the record, makes no
    other call. *)
Theorem appends_grow_logarithmically (A : allocator) (es : Z)
    (d : option cvec_elem_destructor)
    (calls : list (allocator * list byte)) :
  is_uint64 es ->
  Forall (fun c => es <= Z.of_nat (length (snd c))) calls ->
  2 * Z.of_nat (length calls) <= uint64_modulus ->
  sizeof_metadata + 2 * Z.of_nat (length calls) * es < uint64_modulus ->
  exists v evs,
    (h <- cvec_reserve A 0 es d ;; push_back_all h calls)
      = Some (Vec v, call_malloc sizeof_metadata :: evs) /\
    Forall (fun ev => is_realloc ev = true) evs /\
    reallocs evs = growths_after (Z.of_nat (length calls)) /\
    map growths_after [1; 2; 3; 4; 5; 6; 7; 8; 9] = [1; 2; 3; 3; 4; 4; 4; 4; 5].
Proof.
  intros Hes Hall Hn Hb.
  assert (H32 : sizeof_metadata = 32) by reflexivity.
  rewrite cvec_reserve_defined; [| lia | apply Hes | unfold uint64_modulus; lia].
  cbv [bind]. rewrite Z.mul_0_l, Z.add_0_r. cbn [Z.to_nat repeat].
  set (v0 := {| base := place A; size := 0; capacity := 0; typesize := es;
                destructor := d; data := [] |}).
  destruct (growths_run calls v0) as (v' & evs & H & Hcount & Hallr).
  - constructor; cbn; unfold is_uint64, uint64_modulus in *; lia.
  - reflexivity.
  - exact Hall.
  - cbn [size v0]. lia.
  - cbn [size typesize v0]. lia.
  - rewrite H. exists v', evs. cbn [app]. split; [reflexivity |].
    split; [exact Hallr |]. split; [| vm_compute; reflexivity].
    cbn [size v0] in Hcount. rewrite Hcount. cbn [growths_after Z.eqb].
    rewrite Z.add_0_l. lia.
Qed.

Lemma appends_grow_logarithmically_witness :
  exists v evs,
    (h <- cvec_reserve (heap_at 4096) 0 1 None ;;
     push_back_all h [(heap_at 4096, [x10]); (heap_at 4096, [x20]);
                      (heap_at 8192, [x30])])
      = Some (Vec v, call_malloc sizeof_metadata :: evs) /\
    Forall (fun ev => is_realloc ev = true) evs /\
    reallocs evs = growths_after (Z.of_nat 3) /\
    map growths_after [1; 2; 3; 4; 5; 6; 7; 8; 9] = [1; 2; 3; 3; 4; 4; 4; 4; 5].
Proof.
  apply (appends_grow_logarithmically (heap_at 4096) 1 None
           [(heap_at 4096, [x10]); (heap_at 4096, [x20]);
            (heap_at 8192, [x30])]).
  - vm_compute; intuition congruence.
  - repeat constructor; vm_compute; congruence.
  - vm_compute; congruence.
  - vm_compute; reflexivity.
Defined.
